(** * errgo: errors with an attached call stack

    A shallow embedding of the Go package [errgo] (files [stackframe.go] and
    the file defining [StackableError]) and the properties of it that its
    specification states.

    Conventions of the embedding
    - a Go [string] is a Rocq [string]: a sequence of bytes, so the center dot
      U+00B7 is the two bytes C2 B7, exactly as in Go;
    - Go [int] and [uintptr] values are [Z];
    - a run-time panic (nil dereference, slice bounds out of range, negative
      [make] length, [==] on two interface values of one type that is not
      comparable) is the result [Panic]; recursion through the heap is
      bounded by fuel and reports [OutOfFuel] when it runs out;
    - [*StackableError] values are addresses into a heap of objects, so that
      identity and aliasing are those of the Go program. *)

From Stdlib Require Import ZArith String Ascii Lia DecimalString.
From stdpp Require Import base list strings.

#[local] Arguments String.append !_ _ / : simpl nomatch.

(** ** Results of fallible computations *)

Inductive result (A : Type) : Type :=
| Ok (a : A)
| Panic
| OutOfFuel.
Arguments Ok {A} a.
Arguments Panic {A}.
Arguments OutOfFuel {A}.

#[global] Instance result_ret : MRet result := fun _ a => Ok a.
#[global] Instance result_bind : MBind result := fun _ _ k r =>
  match r with
  | Ok a => k a
  | Panic => Panic
  | OutOfFuel => OutOfFuel
  end.

#[global] Instance result_fmap : FMap result := fun _ _ f r =>
  match r with
  | Ok a => Ok (f a)
  | Panic => Panic
  | OutOfFuel => OutOfFuel
  end.

(** ** The parts of Go's [strings] package the program calls *)

Module Strings.

Definition len (s : string) : Z := Z.of_nat (String.length s).

Fixpoint str_take (n : nat) (s : string) : string :=
  match n, s with
  | S k, String c s' => String c (str_take k s')
  | _, _ => ""
  end.

Fixpoint str_drop (n : nat) (s : string) : string :=
  match n, s with
  | S k, String _ s' => str_drop k s'
  | _, _ => s
  end.

(** The slice expression [s[lo:hi]]; it panics unless [0 <= lo <= hi <= len(s)]. *)
Definition slice (s : string) (lo hi : Z) : result string :=
  if ((0 <=? lo) && (lo <=? hi) && (hi <=? len s))%Z
  then Ok (str_take (Z.to_nat (hi - lo)) (str_drop (Z.to_nat lo) s))
  else Panic.

(** [strings.HasPrefix]. *)
Fixpoint HasPrefix (s prefix : string) : bool :=
  match prefix, s with
  | "", _ => true
  | String c p', String d s' => if Ascii.eqb c d then HasPrefix s' p' else false
  | String _ _, "" => false
  end.

(** [strings.Index]: the offset of the first instance of [substr], or -1. *)
Fixpoint Index (s substr : string) : Z :=
  if HasPrefix s substr then 0%Z
  else match s with
       | "" => (-1)%Z
       | String _ s' =>
           let i := Index s' substr in
           if (i <? 0)%Z then (-1)%Z else (i + 1)%Z
       end.

(** [strings.LastIndex]: the offset of the last instance of [substr], or -1. *)
Fixpoint LastIndex (s substr : string) : Z :=
  match s with
  | "" => if HasPrefix "" substr then 0%Z else (-1)%Z
  | String _ s' =>
      let i := LastIndex s' substr in
      if (0 <=? i)%Z then (i + 1)%Z
      else if HasPrefix s substr then 0%Z else (-1)%Z
  end.

(** [strings.Replace(s, old, new, n)] for a non-empty [old]: the first [n]
    non-overlapping instances of [old] are replaced, all of them when
    [n < 0].  [skip] counts the bytes of a matched instance still to be
    passed over. *)
Fixpoint replace_from (old new : string) (n : Z) (skip : nat) (s : string) : string :=
  match s with
  | "" => ""
  | String c s' =>
      match skip with
      | S k => replace_from old new n k s'
      | O =>
          if (n =? 0)%Z then s
          else if HasPrefix s old
               then new +:+ replace_from old new (n - 1) (String.length old - 1) s'
               else String c (replace_from old new n 0 s')
      end
  end.

Definition Replace (s old new : string) (n : Z) : string :=
  replace_from old new n 0 s.

(** [strings.Split(s, sep)] for a non-empty [sep], as the library's
    [genSplit] loop: cut at the first instance, continue with the rest.  The
    library bounds the loop by the number of instances; the length of [s]
    bounds that number. *)
Fixpoint genSplit (fuel : nat) (s sep : string) : list string :=
  match fuel with
  | O => [s]
  | S k =>
      let m := Index s sep in
      if (m <? 0)%Z then [s]
      else str_take (Z.to_nat m) s
             :: genSplit k (str_drop (Z.to_nat m + String.length sep) s) sep
  end.

Definition Split (s sep : string) : list string :=
  genSplit (String.length s) s sep.

End Strings.

(** ** [fmt] verbs used by the program *)

(** The line feed, written [\n] in Go. *)
Definition LF : string := String "010"%char "".

(** [%d] of an [int]. *)
Definition format_int (z : Z) : string := NilZero.string_of_int (Z.to_int z).

(** ** The run-time's symbol table *)

(** A [*runtime.Func]: its qualified name and its [FileLine] method. *)
Record Func := mkFunc {
  Name : string;
  FileLine : Z → string * Z
}.

(** The methods of [*runtime.Func] on a pointer that may be nil: the run-time's
    [Name] answers the empty string on nil, [FileLine] dereferences it. *)
Definition Func_Name (fn : option Func) : string :=
  match fn with
  | Some f => Name f
  | None => ""
  end.

Definition Func_FileLine (fn : option Func) (pc : Z) : result (string * Z) :=
  match fn with
  | Some f => Ok (FileLine f pc)
  | None => Panic
  end.

(** [uintptr] arithmetic wraps around at the word size. *)
Definition uintptr_sub (a b : Z) : Z := ((a - b) mod 2 ^ 64)%Z.

(** ** stackframe.go *)

Record StackFrame := mkStackFrame {
  Caller : Z;
  File : string;
  LineNumber : Z;
  FunctionName : string;
  Package : string
}.

Definition packageAndName (fn : option Func) : result (string * string) :=
  let name := Func_Name fn in
  let pkg := "" in
  '(pkg, name) ←
    (let lastslash := Strings.LastIndex name "/" in
     if (0 <=? lastslash)%Z then
       dir ← Strings.slice name 0 lastslash;
       rest ← Strings.slice name (lastslash + 1) (Strings.len name);
       Ok (pkg +:+ dir +:+ "/", rest)
     else Ok (pkg, name));
  '(pkg, name) ←
    (let period := Strings.Index name "." in
     if (0 <=? period)%Z then
       short ← Strings.slice name 0 period;
       rest ← Strings.slice name (period + 1) (Strings.len name);
       Ok (pkg +:+ short, rest)
     else Ok (pkg, name));
  Ok (pkg, Strings.Replace name "·" "." (-1)).

(** The first loop of [RelativeFilePath]: how many folders precede the
    first one named [src]. *)
Fixpoint count_to_src (folders : list string) : nat :=
  match folders with
  | [] => 0
  | folder :: rest => if decide (folder = "src") then 0 else S (count_to_src rest)
  end.

(** The slice expression [l[lo:]] on a slice of strings. *)
Definition slice_from {A} (l : list A) (lo : nat) : result (list A) :=
  if decide (lo ≤ length l) then Ok (drop lo l) else Panic.

(** The second loop: every remaining folder is written after a slash. *)
Definition write_folders (buf : string) (folders : list string) : string :=
  fold_left (fun buf folder => (buf +:+ "/") +:+ folder) folders buf.

Definition RelativeFilePath (file : string) : result string :=
  let folders := Strings.Split file "/" in
  let count := count_to_src folders in
  if decide (length folders ≤ count) then Ok file
  else
    rest ← slice_from folders (count + 1);
    Ok (write_folders "" rest).

(** The method [String] of [*StackFrame]. *)
Definition StackFrame_String (frame : StackFrame) : result string :=
  path ← RelativeFilePath (File frame);
  Ok (path +:+ ": " +:+ FunctionName frame +:+ ": line " +:+ format_int (LineNumber frame)).

(** ** The error values and the heap of [StackableError] objects *)

(** A [*StackableError]: nil or the address of an object. *)
Inductive ptr :=
| Null
| Ref (a : nat).

(** A value of interface type [error]: the nil interface, a [*StackableError]
    (possibly a nil pointer), or an error of any other dynamic type.  Such
    an error is either of a comparable type, as the pointers made by
    [errors.New] and [fmt.Errorf] are ([ErrForeign]: [id] is its identity
    and [msg] the text its [Error] method returns), or of a type that is not
    comparable, such as a slice, a map or a struct holding one
    ([ErrUncomparable]: [ty] names the dynamic type). *)
Inductive error :=
| ErrNil
| ErrForeign (id : nat) (msg : string)
| ErrStackable (p : ptr)
| ErrUncomparable (ty : nat) (msg : string).

(** A value of type [interface{}]: an error (the nil interface included) or
    a value that is no error, given by the text [%v] prints for it. *)
Inductive value :=
| VErr (e : error)
| VOther (text : string).

#[global] Instance ptr_eq_dec : EqDecision ptr.
Proof. solve_decision. Defined.
#[global] Instance error_eq_dec : EqDecision error.
Proof. solve_decision. Defined.

(** The text that the [Error] method of an error that is no
    [*StackableError] returns. *)
Definition foreign_message (e : error) : option string :=
  match e with
  | ErrForeign _ msg => Some msg
  | ErrUncomparable _ msg => Some msg
  | ErrNil | ErrStackable _ => None
  end.

(** Whether two interface values hold the same dynamic type and that type
    is not comparable. *)
Definition same_uncomparable (e original : error) : bool :=
  match e, original with
  | ErrUncomparable ty _, ErrUncomparable ty' _ => bool_decide (ty = ty')
  | _, _ => false
  end.

(** The comparison [e == original] of two interface values: it panics when
    both hold the same dynamic type and that type is not comparable;
    values of different dynamic types are different; pointers are equal
    when they are the same pointer. *)
Definition interface_eq (e original : error) : result bool :=
  if same_uncomparable e original then Panic
  else Ok (bool_decide (e = original)).

Record StackableError := mkStackableError {
  Err : error;
  Prefixes : list string;
  stack : list Z;
  frames : option (list StackFrame)   (* [None] is the nil slice *)
}.

(** The state of the program: the objects allocated so far, the package
    variable [MaxStackDepth], the next identity [fmt.Errorf] hands out, and
    two traces that only observe the run: the addresses passed to
    [runtime.FuncForPC] and the addresses passed to [NewStackFrame], oldest
    first. *)
Record world := mkWorld {
  heap : list StackableError;
  next_id : nat;
  MaxStackDepth : Z;
  lookups : list Z;
  resolutions : list Z
}.

(** ** The state-and-panic monad *)

Definition M (A : Type) : Type := world → result (A * world).

#[global] Instance M_ret : MRet M := fun _ a w => Ok (a, w).
#[global] Instance M_bind : MBind M := fun _ _ k m w =>
  match m w with
  | Ok (a, w') => k a w'
  | Panic => Panic
  | OutOfFuel => OutOfFuel
  end.

Definition get : M world := fun w => Ok (w, w).
Definition put (w : world) : M unit := fun _ => Ok (tt, w).
Definition lift {A} (r : result A) : M A := fun w => (fun a => (a, w)) <$> r.

Definition load (p : ptr) : M StackableError := fun w =>
  match p with
  | Null => Panic
  | Ref a =>
      match heap w !! a with
      | Some o => Ok (o, w)
      | None => Panic
      end
  end.

Definition store (p : ptr) (o : StackableError) : M unit := fun w =>
  match p with
  | Null => Panic
  | Ref a =>
      if decide (a < length (heap w))
      then Ok (tt, mkWorld (<[a := o]> (heap w)) (next_id w) (MaxStackDepth w)
                     (lookups w) (resolutions w))
      else Panic
  end.

(** [&StackableError{...}]: a new object at the next address. *)
Definition alloc (o : StackableError) : M ptr := fun w =>
  Ok (Ref (length (heap w)),
      mkWorld (heap w ++ [o]) (next_id w) (MaxStackDepth w) (lookups w) (resolutions w)).

Definition log_lookup (pc : Z) : M unit := fun w =>
  Ok (tt, mkWorld (heap w) (next_id w) (MaxStackDepth w) (lookups w ++ [pc]) (resolutions w)).

Definition log_resolution (pc : Z) : M unit := fun w =>
  Ok (tt, mkWorld (heap w) (next_id w) (MaxStackDepth w) (lookups w) (resolutions w ++ [pc])).

(** [fmt.Errorf("%v", e)]: a new error object whose text is the [%v]
    rendering of [e]. *)
Definition fmt_Errorf_v (text : string) : M error := fun w =>
  Ok (ErrForeign (next_id w) text,
      mkWorld (heap w) (S (next_id w)) (MaxStackDepth w) (lookups w) (resolutions w)).

(** [make([]uintptr, n)] panics on a negative length. *)
Definition make_uintptrs (n : Z) : result (list Z) :=
  if (n <? 0)%Z then Panic else Ok (replicate (Z.to_nat n) 0%Z).

(** [runtime.Callers(skip, pc)]: [stk] lists the program counters of the
    frames of the calling goroutine, the frame of [Callers] itself first;
    the frames after the first [skip] are written to the front of the
    buffer [pc], as many as fit, and their number is returned. *)
Definition runtime_Callers (skip : Z) (pc : list Z) (stk : list Z) : list Z * Z :=
  let found := take (length pc) (drop (Z.to_nat skip) stk) in
  (found ++ drop (length found) pc, Z.of_nat (length found)).

(** The slice expression [l[:hi]]. *)
Definition slice_to {A} (l : list A) (hi : Z) : result (list A) :=
  if ((0 <=? hi) && (hi <=? Z.of_nat (length l)))%Z
  then Ok (take (Z.to_nat hi) l) else Panic.

(** ** The program *)

Section Errgo.

(** [runtime.FuncForPC], and the program counters that identify the frames
    of [runtime.Callers], [newStackableError], [Wrap] and [WrapPrefix] on a
    goroutine's stack. *)
Variable FuncForPC : Z → option Func.
Variables pcCallers pcNewStackableError pcWrap pcWrapPrefix : Z.

(** *** stackframe.go, continued *)

Definition StackFrame_Func (frame : StackFrame) : M (option Func) :=
  if decide (Caller frame = 0%Z) then mret None
  else log_lookup (Caller frame);; mret (FuncForPC (Caller frame)).

Definition NewStackFrame (caller : Z) : M StackFrame :=
  log_resolution caller;;
  let frame := mkStackFrame caller "" 0 "" "" in
  fn ← StackFrame_Func frame;
  if fn is None then mret frame
  else
    fn ← StackFrame_Func frame;
    '(pkg, name) ← lift (packageAndName fn);
    let frame := mkStackFrame (Caller frame) (File frame) (LineNumber frame) name pkg in
    fn ← StackFrame_Func frame;
    '(file, line) ← lift (Func_FileLine fn (uintptr_sub caller 1));
    mret (mkStackFrame (Caller frame) file line (FunctionName frame) (Package frame)).

(** *** The file defining [StackableError] *)

(** The loop of [Error] over the prefixes. *)
Definition prefix_loop (prefixes : list string) (msg : string) : string :=
  fold_left (λ msg prefix, prefix +:+ ": " +:+ msg) prefixes msg.

(** The method [Error] of an [error] value [e], read from the heap [h]: for
    a [*StackableError] it is the method of the program, which calls
    [Error] on the cause and then prepends the prefixes in turn. *)
Fixpoint Error (fuel : nat) (h : list StackableError) (e : error) : result string :=
  match fuel with
  | O => OutOfFuel
  | S fuel' =>
      match e with
      | ErrNil => Panic
      | ErrForeign _ msg => Ok msg
      | ErrUncomparable _ msg => Ok msg
      | ErrStackable Null => Panic
      | ErrStackable (Ref a) =>
          match h !! a with
          | None => Panic
          | Some err =>
              msg ← Error fuel' h (Err err);
              Ok (prefix_loop (Prefixes err) msg)
          end
      end
  end.

Definition Callers (err : ptr) : M (list Z) :=
  o ← load err; mret (stack o).

Definition newStackableError (e : error) (skip : Z) (stk : list Z) : M ptr :=
  let prefixes := [] in
  w ← get;
  buf ← lift (make_uintptrs (MaxStackDepth w));
  let '(buf, length) :=
    runtime_Callers (2 + skip) buf (pcCallers :: pcNewStackableError :: stk) in
  captured ← lift (slice_to buf length);
  alloc (mkStackableError e prefixes captured None).

(** [stk] lists the frames of the goroutine that calls [Wrap], the caller's
    own frame first. *)
Definition Wrap (e : value) (stk : list Z) : M ptr :=
  match e with
  | VErr (ErrStackable p) => mret p
  | VErr (ErrForeign id msg) => newStackableError (ErrForeign id msg) 1 (pcWrap :: stk)
  | VErr (ErrUncomparable ty msg) =>
      newStackableError (ErrUncomparable ty msg) 1 (pcWrap :: stk)
  | VErr ErrNil => err ← fmt_Errorf_v "<nil>"; newStackableError err 1 (pcWrap :: stk)
  | VOther text => err ← fmt_Errorf_v text; newStackableError err 1 (pcWrap :: stk)
  end.

Definition WrapPrefix (e : value) (prefix : string) (stk : list Z) : M ptr :=
  err ← Wrap e (pcWrapPrefix :: stk);
  o ← load err;
  store err (mkStackableError (Err o) (Prefixes o ++ [prefix]) (stack o) (frames o));;
  mret err.

(** The dereference of a pointer in a heap. *)
Definition deref (h : list StackableError) (p : ptr) : result StackableError :=
  match p with
  | Null => Panic
  | Ref a => if h !! a is Some o then Ok o else Panic
  end.

Fixpoint Is (fuel : nat) (h : list StackableError) (e original : error) : result bool :=
  match fuel with
  | O => OutOfFuel
  | S fuel' =>
      same ← interface_eq e original;
      if same : bool then Ok true
      else match e with
           | ErrStackable p => o ← deref h p; Is fuel' h (Err o) original
           | _ =>
               match original with
               | ErrStackable p => o ← deref h p; Is fuel' h e (Err o)
               | _ => Ok false
               end
           end
  end.

(** [err.frames[i] = f]. *)
Definition set_frame (err : ptr) (i : nat) (f : StackFrame) : M unit :=
  o ← load err;
  match frames o with
  | Some fs =>
      if decide (i < length fs)
      then store err (mkStackableError (Err o) (Prefixes o) (stack o) (Some (<[i := f]> fs)))
      else lift Panic
  | None => lift Panic
  end.

(** The loop [for i, pc := range err.stack], from index [i] on. *)
Fixpoint resolve_loop (err : ptr) (i : nat) (pcs : list Z) : M unit :=
  match pcs with
  | [] => mret tt
  | pc :: rest =>
      f ← NewStackFrame pc;
      set_frame err i f;;
      resolve_loop err (S i) rest
  end.

Definition zero_frame : StackFrame := mkStackFrame 0 "" 0 "" "".

Definition StackFrames (err : ptr) : M (list StackFrame) :=
  o ← load err;
  (if frames o is None then
     store err (mkStackableError (Err o) (Prefixes o) (stack o)
                  (Some (replicate (length (stack o)) zero_frame)));;
     resolve_loop err 0 (stack o)
   else mret tt);;
  o ← load err;
  mret (default [] (frames o)).

(** The loop of [Stack] over the frames, writing to the buffer. *)
Fixpoint stack_loop (buf : string) (fs : list StackFrame) : result string :=
  match fs with
  | [] => Ok buf
  | frame :: rest =>
      line ← StackFrame_String frame;
      stack_loop ((buf +:+ line) +:+ LF) rest
  end.

Definition Stack (err : ptr) : M string :=
  fs ← StackFrames err;
  lift (stack_loop "" fs).

Definition StackTrace (fuel : nat) (err : ptr) : M string :=
  w ← get;
  msg ← lift (Error fuel (heap w) (ErrStackable err));
  st ← Stack err;
  mret ("ERROR: " +:+ msg +:+ LF +:+ st).

End Errgo.

(** ** Notions the statements use *)

(** [occurs c s]: the byte [c] is one of the bytes of [s]. *)
Fixpoint occurs (c : ascii) (s : string) : Prop :=
  match s with
  | "" => False
  | String d s' => c = d ∨ occurs c s'
  end.

(** Whether a string starts with the second byte of the center dot. *)
Definition head_is_183 (s : string) : bool :=
  match s with
  | String d _ => Ascii.eqb "183" d
  | "" => false
  end.

(** The concatenation of a list of strings. *)
Definition str_concat (l : list string) : string := foldr String.append "" l.

(** [strings.Join]: the elements with [sep] between them. *)
Fixpoint Join (elems : list string) (sep : string) : string :=
  match elems with
  | [] => ""
  | x :: rest =>
      match rest with
      | [] => x
      | _ :: _ => x +:+ sep +:+ Join rest sep
      end
  end.

(** The path segments of a file name. *)
Definition segments (file : string) : list string := Strings.Split file "/".

(** [chain h e l]: [l] is the chain of causes of [e] in the heap [h], from
    [e] itself down to the first error that is no [*StackableError]; every
    pointer on the way points to an object. *)
Inductive chain (h : list StackableError) : error → list error → Prop :=
| chain_root (e : error) :
    (∀ p, e ≠ ErrStackable p) → chain h e [e]
| chain_step (a : nat) (o : StackableError) (l : list error) :
    h !! a = Some o → chain h (Err o) l →
    chain h (ErrStackable (Ref a)) (ErrStackable (Ref a) :: l).


(** ** Runs of the package *)

(** [resolves FuncForPC pc frame]: [NewStackFrame] returns [frame] for [pc]. *)
Definition resolves (FuncForPC : Z → option Func) (pc : Z) (frame : StackFrame) : Prop :=
  ∃ w w', NewStackFrame FuncForPC pc w = Ok (frame, w').

(** What a client of the package can do to the state: call its functions
    and methods, and assign to [MaxStackDepth]. *)
Inductive op :=
| OpWrap (e : value) (stk : list Z)
| OpWrapPrefix (e : value) (prefix : string) (stk : list Z)
| OpStackFrames (err : ptr)
| OpStack (err : ptr)
| OpStackTrace (fuel : nat) (err : ptr)
| OpSetMaxStackDepth (d : Z).

Section Runs.
Variable FuncForPC : Z → option Func.
Variables pcCallers pcNewStackableError pcWrap pcWrapPrefix : Z.

Definition run_op (o : op) : M unit :=
  match o with
  | OpWrap e stk => Wrap pcCallers pcNewStackableError pcWrap e stk;; mret tt
  | OpWrapPrefix e prefix stk =>
      WrapPrefix pcCallers pcNewStackableError pcWrap pcWrapPrefix e prefix stk;; mret tt
  | OpStackFrames err => StackFrames FuncForPC err;; mret tt
  | OpStack err => Stack FuncForPC err;; mret tt
  | OpStackTrace fuel err => StackTrace FuncForPC fuel err;; mret tt
  | OpSetMaxStackDepth d => λ w,
      Ok (tt, mkWorld (heap w) (next_id w) d (lookups w) (resolutions w))
  end.

(** [steps w ops w']: the operations [ops], run in turn from [w], all return
    and leave the state [w']. *)
Inductive steps : world → list op → world → Prop :=
| steps_nil (w : world) : steps w [] w
| steps_cons (w w1 w2 : world) (o : op) (ops : list op) :
    run_op o w = Ok (tt, w1) → steps w1 ops w2 → steps w (o :: ops) w2.

End Runs.

(** [obj_le o o']: what may have happened to an object between two states
    of a run: cause and captured addresses are as they were, a filled frames
    cache is as it was, and a cache filled in between has one frame for each
    captured address. *)
Definition obj_le (o o' : StackableError) : Prop :=
  Err o' = Err o
  ∧ stack o' = stack o
  ∧ (∀ fs, frames o = Some fs → frames o' = Some fs)
  ∧ (frames o = None → ∀ fs, frames o' = Some fs → length fs = length (stack o)).

Definition world_le (w w' : world) : Prop :=
  ∀ a o, heap w !! a = Some o → ∃ o', heap w' !! a = Some o' ∧ obj_le o o'.

(** [prefixes_le w w']: every object of [w] is still there in [w'], with
    the prefixes it had and possibly more behind them. *)
Definition prefixes_le (w w' : world) : Prop :=
  ∀ a o, heap w !! a = Some o →
    ∃ o', heap w' !! a = Some o' ∧ Prefixes o `prefix_of` Prefixes o'.

(** [causes_foreign h]: the cause of every object is an error that is no
    [*StackableError] and not nil. *)
Definition causes_foreign (h : list StackableError) : Prop :=
  ∀ a o, h !! a = Some o → ∃ msg, foreign_message (Err o) = Some msg.

(** The line [Stack] writes for a frame. *)
Definition renders (frame : StackFrame) (line : string) : Prop :=
  StackFrame_String frame = Ok line.

(** ** Sample inputs *)

(** A symbol table with two functions, and the method of the spec's example. *)
Definition sample_method : Func :=
  mkFunc "example.com/pkg/sub.Type·method" (λ pc, ("/home/build/src/pkg/file.go", pc)).

Definition sample_FuncForPC (pc : Z) : option Func :=
  if decide (pc = 100%Z) then Some sample_method
  else if decide (pc = 200%Z)
       then Some (mkFunc "main.main" (λ _, ("/go/src/app/main.go", 7%Z)))
       else None.

(** A state with one error already wrapped and prefixed once. *)
Definition sample_world : world :=
  mkWorld [mkStackableError (ErrForeign 7 "boom") ["a"] [100%Z; 0%Z; 200%Z] None]
    0 50 [] [].

(** * Properties *)

(** ** Strings *)

Module StringFacts.
Import Strings.

Lemma str_app_nil_r (s : string) : s +:+ "" = s.
Proof. induction s as [|c s IH]; simpl; [done | by rewrite IH]. Qed.

Lemma str_app_assoc (a b c : string) : (a +:+ b) +:+ c = a +:+ (b +:+ c).
Proof. induction a as [|x a IH]; simpl; [done | by rewrite IH]. Qed.

Lemma str_length_app (a b : string) :
  String.length (a +:+ b) = String.length a + String.length b.
Proof. induction a as [|x a IH]; simpl; [done | by rewrite IH]. Qed.

Lemma len_app (a b : string) : len (a +:+ b) = (len a + len b)%Z.
Proof. unfold len. rewrite str_length_app. lia. Qed.

Lemma len_nonneg (s : string) : (0 ≤ len s)%Z.
Proof. unfold len. lia. Qed.

Lemma str_take_app (a b : string) : str_take (String.length a) (a +:+ b) = a.
Proof. induction a as [|x a IH]; simpl; [by destruct b | by rewrite IH]. Qed.

Lemma str_drop_app (a b : string) : str_drop (String.length a) (a +:+ b) = b.
Proof. induction a as [|x a IH]; simpl; [by destruct b | done]. Qed.

Lemma str_take_0 (s : string) : str_take 0 s = "".
Proof. by destruct s. Qed.

Lemma str_drop_0 (s : string) : str_drop 0 s = s.
Proof. by destruct s. Qed.

Lemma str_take_all (s : string) : str_take (String.length s) s = s.
Proof. induction s as [|x s IH]; simpl; [done | by rewrite IH]. Qed.

Lemma str_drop_drop (n m : nat) (s : string) :
  str_drop n (str_drop m s) = str_drop (m + n) s.
Proof.
  revert s; induction m as [|m IH]; intros s.
  - by rewrite str_drop_0.
  - destruct s as [|x s]; simpl; [by destruct n | apply IH].
Qed.

(** Slices of a concatenation. *)
Lemma slice_prefix (a b : string) : slice (a +:+ b) 0 (len a) = Ok a.
Proof.
  unfold slice. rewrite len_app.
  pose proof (len_nonneg a); pose proof (len_nonneg b).
  replace ((0 <=? 0)%Z && (0 <=? len a)%Z && (len a <=? len a + len b)%Z) with true
    by (symmetry; rewrite !andb_true_iff, !Z.leb_le; lia).
  change (Z.to_nat 0) with 0. rewrite str_drop_0. unfold len.
  replace (Z.to_nat (Z.of_nat (String.length a) - 0)) with (String.length a) by lia.
  by rewrite str_take_app.
Qed.

Lemma slice_suffix (a b : string) : slice (a +:+ b) (len a) (len (a +:+ b)) = Ok b.
Proof.
  unfold slice. rewrite len_app.
  pose proof (len_nonneg a); pose proof (len_nonneg b).
  replace ((0 <=? len a)%Z && (len a <=? len a + len b)%Z
           && (len a + len b <=? len a + len b)%Z) with true
    by (symmetry; rewrite !andb_true_iff, !Z.leb_le; lia).
  unfold len.
  replace (Z.to_nat (Z.of_nat (String.length a))) with (String.length a) by lia.
  rewrite str_drop_app.
  replace (Z.to_nat _) with (String.length b) by lia.
  by rewrite str_take_all.
Qed.

Lemma slice_after_byte (a b : string) (c : ascii) :
  slice (a +:+ String c b) (len a + 1) (len (a +:+ String c b)) = Ok b.
Proof.
  change (String c b) with (String c "" +:+ b).
  rewrite <- str_app_assoc.
  replace (len a + 1)%Z with (len (a +:+ String c "")) by (rewrite len_app; done).
  apply slice_suffix.
Qed.

(** A slice within bounds does not panic. *)
Lemma slice_in_bounds (s : string) (lo hi : Z) :
  (0 ≤ lo ≤ hi)%Z → (hi ≤ len s)%Z → ∃ r, slice s lo hi = Ok r.
Proof.
  intros [H1 H2] H3. unfold slice.
  replace ((0 <=? lo)%Z && (lo <=? hi)%Z && (hi <=? len s)%Z) with true
    by (symmetry; rewrite !andb_true_iff, !Z.leb_le; lia).
  eauto.
Qed.

Lemma HasPrefix_length (s p : string) :
  HasPrefix s p = true → String.length p ≤ String.length s.
Proof.
  revert s; induction p as [|c p IH]; intros [|d s]; simpl; try (intros; lia); try done.
  destruct (Ascii.eqb c d); [|done]. intros H%IH. lia.
Qed.

Lemma HasPrefix_cut (s p : string) :
  HasPrefix s p = true → s = p +:+ str_drop (String.length p) s.
Proof.
  revert s; induction p as [|c p IH]; intros [|d s]; simpl; try done.
  destruct (Ascii.eqb_spec c d) as [->|]; [|done].
  intros H%IH. by rewrite <- H.
Qed.

Lemma HasPrefix_byte (c d : ascii) (s : string) :
  HasPrefix (String d s) (String c "") = Ascii.eqb c d.
Proof. simpl. by destruct (Ascii.eqb c d), s. Qed.

Lemma Index_nil (sep : string) :
  Index "" sep = if HasPrefix "" sep then 0%Z else (-1)%Z.
Proof. done. Qed.

Lemma Index_cons (x : ascii) (s sep : string) :
  Index (String x s) sep =
  if HasPrefix (String x s) sep then 0%Z
  else if (Index s sep <? 0)%Z then (-1)%Z else (Index s sep + 1)%Z.
Proof. done. Qed.

Lemma LastIndex_nil (sep : string) :
  LastIndex "" sep = if HasPrefix "" sep then 0%Z else (-1)%Z.
Proof. done. Qed.

Lemma LastIndex_cons (x : ascii) (s sep : string) :
  LastIndex (String x s) sep =
  if (0 <=? LastIndex s sep)%Z then (LastIndex s sep + 1)%Z
  else if HasPrefix (String x s) sep then 0%Z else (-1)%Z.
Proof. done. Qed.

Lemma len_cons (x : ascii) (s : string) : len (String x s) = (len s + 1)%Z.
Proof. unfold len. simpl String.length. lia. Qed.

Lemma Index_range (s sep : string) :
  (Index s sep = -1 ∨ 0 ≤ Index s sep ∧ Index s sep + len sep ≤ len s)%Z.
Proof.
  induction s as [|x s IH].
  - rewrite Index_nil. destruct (HasPrefix "" sep) eqn:E; [|by left].
    right. apply HasPrefix_length in E. unfold len. lia.
  - rewrite Index_cons. destruct (HasPrefix (String x s) sep) eqn:E.
    + right. apply HasPrefix_length in E. unfold len. lia.
    + destruct (Z.ltb_spec (Index s sep) 0); [by left|].
      right. rewrite len_cons. lia.
Qed.

Lemma LastIndex_range (s sep : string) :
  (LastIndex s sep = -1 ∨ 0 ≤ LastIndex s sep ∧ LastIndex s sep + len sep ≤ len s)%Z.
Proof.
  induction s as [|x s IH].
  - rewrite LastIndex_nil. destruct (HasPrefix "" sep) eqn:E; [|by left].
    right. apply HasPrefix_length in E. unfold len. lia.
  - rewrite LastIndex_cons. destruct (Z.leb_spec 0 (LastIndex s sep)).
    + right. rewrite len_cons. lia.
    + destruct (HasPrefix (String x s) sep) eqn:E; [|by left].
      right. apply HasPrefix_length in E. unfold len. lia.
Qed.

Lemma Index_byte_none (c : ascii) (s : string) :
  ¬ occurs c s → Index s (String c "") = (-1)%Z.
Proof.
  induction s as [|d s IH]; simpl occurs; intros H; [done|].
  rewrite Index_cons, HasPrefix_byte.
  destruct (Ascii.eqb_spec c d) as [->|]; [tauto|].
  rewrite IH by tauto. done.
Qed.

Lemma Index_byte_first (c : ascii) (a b : string) :
  ¬ occurs c a → Index (a +:+ String c b) (String c "") = len a.
Proof.
  induction a as [|d a IH]; simpl occurs; intros H; simpl String.append.
  - by rewrite Index_cons, HasPrefix_byte, Ascii.eqb_refl.
  - rewrite Index_cons, HasPrefix_byte.
    destruct (Ascii.eqb_spec c d) as [->|]; [tauto|].
    rewrite IH by tauto. pose proof (len_nonneg a).
    destruct (Z.ltb_spec (len a) 0); [lia|]. by rewrite len_cons.
Qed.

Lemma LastIndex_byte_none (c : ascii) (s : string) :
  ¬ occurs c s → LastIndex s (String c "") = (-1)%Z.
Proof.
  induction s as [|d s IH]; simpl occurs; intros H; [done|].
  rewrite LastIndex_cons, HasPrefix_byte.
  rewrite IH by tauto.
  destruct (Ascii.eqb_spec c d) as [->|]; [tauto|done].
Qed.

Lemma LastIndex_byte_last (c : ascii) (a b : string) :
  ¬ occurs c b → LastIndex (a +:+ String c b) (String c "") = len a.
Proof.
  intros H. induction a as [|d a IH]; simpl String.append.
  - rewrite LastIndex_cons, HasPrefix_byte.
    rewrite LastIndex_byte_none by done.
    by rewrite Ascii.eqb_refl.
  - rewrite LastIndex_cons, IH. pose proof (len_nonneg a).
    destruct (Z.leb_spec 0 (len a)); [|lia]. by rewrite len_cons.
Qed.

Lemma occurs_app (c : ascii) (a b : string) :
  occurs c (a +:+ b) ↔ occurs c a ∨ occurs c b.
Proof. induction a as [|d a IH]; simpl; [tauto | rewrite IH; tauto]. Qed.

End StringFacts.

(** ** The frame resolver: [packageAndName] and [RelativeFilePath] *)

Section FrameResolver.
Import Strings StringFacts.

Lemma packageAndName_total (fn : option Func) : ∃ r, packageAndName fn = Ok r.
Proof.
  unfold packageAndName. set (name := Func_Name fn).
  assert (∃ pkg1 name1,
    (if (0 <=? LastIndex name "/")%Z
     then dir ← slice name 0 (LastIndex name "/");
          rest ← slice name (LastIndex name "/" + 1) (len name);
          Ok ("" +:+ dir +:+ "/", rest)
     else Ok ("", name)) = Ok (pkg1, name1)) as (pkg1 & name1 & ->).
  { destruct (Z.leb_spec 0 (LastIndex name "/")) as [Hle|]; [|eauto].
    destruct (LastIndex_range name "/") as [?|[_ Hhi]]; [lia|].
    change (len "/") with 1%Z in Hhi.
    destruct (slice_in_bounds name 0 (LastIndex name "/")) as [dir ->]; [lia..|].
    destruct (slice_in_bounds name (LastIndex name "/" + 1) (len name)) as [rest ->];
      [lia..|].
    simpl. eauto. }
  cbn [mbind result_bind].
  destruct (Z.leb_spec 0 (Index name1 ".")) as [Hle|]; [|simpl; eauto].
  destruct (Index_range name1 ".") as [?|[_ Hhi]]; [lia|].
  change (len ".") with 1%Z in Hhi.
  destruct (slice_in_bounds name1 0 (Index name1 ".")) as [short ->]; [lia..|].
  destruct (slice_in_bounds name1 (Index name1 "." + 1) (len name1)) as [rest ->];
    [lia..|].
  simpl. eauto.
Qed.

(** What [packageAndName] does at the first period of a name without slash. *)
Lemma cut_at_period (pkg short rest : string) :
  ¬ occurs "." short →
  (if (0 <=? Index (short +:+ "." +:+ rest) ".")%Z
   then sh ← slice (short +:+ "." +:+ rest) 0 (Index (short +:+ "." +:+ rest) ".");
        r ← slice (short +:+ "." +:+ rest) (Index (short +:+ "." +:+ rest) "." + 1)
              (len (short +:+ "." +:+ rest));
        Ok (pkg +:+ sh, r)
   else Ok (pkg, short +:+ "." +:+ rest)) = Ok (pkg +:+ short, rest).
Proof.
  intros Hs. simpl String.append.
  rewrite (Index_byte_first "." short rest) by done.
  pose proof (len_nonneg short). destruct (Z.leb_spec 0 (len short)); [|lia].
  change (String "." rest) with ("." +:+ rest).
  rewrite slice_prefix. simpl String.append.
  rewrite slice_after_byte. done.
Qed.

(** What [packageAndName] does at the last slash. *)
Lemma cut_at_slash (d tail : string) :
  ¬ occurs "/" tail →
  (if (0 <=? LastIndex (d +:+ "/" +:+ tail) "/")%Z
   then dir ← slice (d +:+ "/" +:+ tail) 0 (LastIndex (d +:+ "/" +:+ tail) "/");
        r ← slice (d +:+ "/" +:+ tail) (LastIndex (d +:+ "/" +:+ tail) "/" + 1)
              (len (d +:+ "/" +:+ tail));
        Ok ("" +:+ dir +:+ "/", r)
   else Ok ("", d +:+ "/" +:+ tail)) = Ok (d +:+ "/", tail).
Proof.
  intros Ht. simpl String.append.
  rewrite (LastIndex_byte_last "/" d tail) by done.
  pose proof (len_nonneg d). destruct (Z.leb_spec 0 (len d)); [|lia].
  change (String "/" tail) with ("/" +:+ tail).
  rewrite slice_prefix. simpl String.append.
  rewrite slice_after_byte. done.
Qed.

Lemma no_slash_in_tail (short rest : string) :
  ¬ occurs "/" short → ¬ occurs "/" rest → ¬ occurs "/" (short +:+ "." +:+ rest).
Proof.
  intros Hs Hr. rewrite occurs_app. simpl. intros [?|[?|?]]; [tauto | done | tauto].
Qed.

Lemma packageAndName_with_path (fn : Func) (d short rest : string) :
  Name fn = (d +:+ "/") +:+ short +:+ "." +:+ rest →
  ¬ occurs "/" short → ¬ occurs "." short → ¬ occurs "/" rest →
  packageAndName (Some fn) = Ok ((d +:+ "/") +:+ short, Replace rest "·" "." (-1)).
Proof.
  intros Hname Hs1 Hs2 Hr.
  unfold packageAndName. simpl Func_Name. rewrite Hname, str_app_assoc.
  rewrite cut_at_slash by by apply no_slash_in_tail.
  cbn [mbind result_bind]. cbv beta iota.
  rewrite cut_at_period by done. done.
Qed.

Lemma packageAndName_without_path (fn : Func) (short rest : string) :
  Name fn = short +:+ "." +:+ rest →
  ¬ occurs "/" short → ¬ occurs "." short → ¬ occurs "/" rest →
  packageAndName (Some fn) = Ok (short, Replace rest "·" "." (-1)).
Proof.
  intros Hname Hs1 Hs2 Hr.
  unfold packageAndName. simpl Func_Name. rewrite Hname.
  rewrite (LastIndex_byte_none "/") by by apply no_slash_in_tail.
  change (0 <=? -1)%Z with false.
  cbn [mbind result_bind]. cbv beta iota.
  rewrite cut_at_period by done. done.
Qed.

(** *** Replacing the center dots *)

Lemma replace_from_negative (old new s : string) (n m : Z) (skip : nat) :
  (n < 0)%Z → (m < 0)%Z → replace_from old new n skip s = replace_from old new m skip s.
Proof.
  revert n m skip. induction s as [|c s IH]; intros n m skip Hn Hm; [done|].
  simpl. destruct skip as [|k]; [|by apply IH].
  destruct (Z.eqb_spec n 0); [lia|]. destruct (Z.eqb_spec m 0); [lia|].
  destruct (match old with "" => true | String c0 p' => _ end);
    [f_equal; apply IH; lia | f_equal; by apply IH].
Qed.

Lemma Replace_nil (old new : string) (n : Z) : Replace "" old new n = "".
Proof. done. Qed.

(** At a center dot, [Replace] writes a period and goes on behind it. *)
Lemma Replace_at_center_dot (s : string) :
  Replace ("·" +:+ s) "·" "." (-1) = "." +:+ Replace s "·" "." (-1).
Proof.
  unfold Replace. simpl. destruct s as [|c s]; [done|].
  f_equal. by apply replace_from_negative.
Qed.

(** Elsewhere it copies the byte. *)
Lemma Replace_at_other (c : ascii) (s : string) :
  HasPrefix (String c s) "·" = false →
  Replace (String c s) "·" "." (-1) = String c (Replace s "·" "." (-1)).
Proof.
  intros H. unfold Replace. cbn [replace_from]. rewrite H. done.
Qed.

(** A string without center dot is returned as it is. *)
Lemma Replace_absent (s : string) :
  Index s "·" = (-1)%Z → Replace s "·" "." (-1) = s.
Proof.
  induction s as [|c s IH]; [done|].
  rewrite Index_cons. destruct (HasPrefix (String c s) "·") eqn:E; [done|].
  destruct (Z.ltb_spec (Index s "·") 0) as [Hlt|]; [|lia]. intros _.
  rewrite Replace_at_other by done. f_equal. apply IH.
  destruct (Index_range s "·"); [done|lia].
Qed.

Lemma HasPrefix_center_dot (c : ascii) (s : string) :
  HasPrefix (String c s) "·"
  = Ascii.eqb "194" c
    && match s with
       | String d _ => Ascii.eqb "183" d
       | "" => false
       end.
Proof.
  cbn [HasPrefix]. destruct (Ascii.eqb "194" c); [|done].
  destruct s as [|d s]; [done|]. by rewrite HasPrefix_byte.
Qed.

(** Every center dot becomes a period, whatever stands around it. *)
Lemma Replace_center_dot (a b : string) :
  Replace (a +:+ "·" +:+ b) "·" "." (-1)
  = Replace a "·" "." (-1) +:+ "." +:+ Replace b "·" "." (-1).
Proof.
  remember (String.length a) as k eqn:Hk. revert a Hk.
  induction k as [k IH] using lt_wf_ind. intros a ->.
  destruct a as [|c a]; [apply Replace_at_center_dot|].
  destruct (HasPrefix (String c a) "·") eqn:E.
  - pose proof (HasPrefix_cut _ _ E) as Hcut. simpl String.length in Hcut.
    revert Hcut. generalize (str_drop 2 (String c a)). intros t Hcut.
    rewrite Hcut in IH |- *. clear Hcut E.
    rewrite str_app_assoc, !Replace_at_center_dot, str_app_assoc.
    f_equal. eapply (IH (String.length t)); [simpl; lia | done].
  - assert (HasPrefix (String c a +:+ "·" +:+ b) "·" = false) as E'.
    { simpl String.append. rewrite HasPrefix_center_dot in E |- *.
      destruct a as [|d a]; [|exact E].
      simpl String.append. by rewrite andb_false_r. }
    simpl String.append in *. rewrite !Replace_at_other by done.
    simpl. f_equal. eapply (IH (String.length a)); [simpl; lia | done].
Qed.

End FrameResolver.

(** ** [RelativeFilePath] *)

Section RelativePath.
Import Strings StringFacts.

Lemma Index_cut (s sep : string) :
  (0 ≤ Index s sep)%Z →
  s = str_take (Z.to_nat (Index s sep)) s +:+ sep
        +:+ str_drop (Z.to_nat (Index s sep) + String.length sep) s.
Proof.
  induction s as [|x s IH].
  - rewrite Index_nil. destruct (HasPrefix "" sep) eqn:E; [|lia].
    apply HasPrefix_length in E. destruct sep; [done | simpl in E; lia].
  - rewrite Index_cons. destruct (HasPrefix (String x s) sep) eqn:E.
    + intros _. change (Z.to_nat 0) with 0. rewrite str_take_0.
      by apply HasPrefix_cut.
    + destruct (Z.ltb_spec (Index s sep) 0) as [|Hge]; [lia|]. intros _.
      replace (Z.to_nat (Index s sep + 1)) with (S (Z.to_nat (Index s sep))) by lia.
      simpl. f_equal. by apply IH.
Qed.

Lemma genSplit_nonempty (fuel : nat) (s sep : string) : genSplit fuel s sep ≠ [].
Proof. destruct fuel; simpl; [done|]. by destruct (_ <? _)%Z. Qed.

Lemma Join_cons (x : string) (l : list string) (sep : string) :
  l ≠ [] → Join (x :: l) sep = x +:+ sep +:+ Join l sep.
Proof. by destruct l. Qed.

(** Joining what [Split] returns gives the string back. *)
Lemma Join_genSplit (fuel : nat) (s sep : string) : Join (genSplit fuel s sep) sep = s.
Proof.
  revert s; induction fuel as [|fuel IH]; intros s; simpl; [done|].
  destruct (Z.ltb_spec (Index s sep) 0) as [|Hge]; [done|].
  rewrite Join_cons by apply genSplit_nonempty.
  rewrite IH. symmetry. by apply Index_cut.
Qed.

Lemma Join_Split (s sep : string) : Join (Split s sep) sep = s.
Proof. apply Join_genSplit. Qed.

Lemma str_concat_app (l1 l2 : list string) :
  str_concat (l1 ++ l2) = str_concat l1 +:+ str_concat l2.
Proof.
  induction l1 as [|x l1 IH]; simpl; [done|].
  unfold str_concat in *. simpl. by rewrite IH, str_app_assoc.
Qed.

Lemma Join_as_concat (before after : list string) (x sep : string) :
  Join (before ++ (x :: after)) sep =
  str_concat ((λ f, f +:+ sep) <$> before) +:+ x
    +:+ str_concat ((λ f, sep +:+ f) <$> after).
Proof.
  induction before as [|b before IH].
  - simpl app. change (str_concat _ +:+ ?t) with t.
    revert x. induction after as [|a after IHa]; intros x.
    + simpl. by rewrite str_app_nil_r.
    + rewrite Join_cons by done. rewrite IHa. f_equal.
      rewrite fmap_cons. unfold str_concat at 2. simpl foldr.
      by rewrite str_app_assoc.
  - change ((b :: before) ++ x :: after) with (b :: (before ++ x :: after)).
    rewrite Join_cons by by destruct before.
    rewrite IH, fmap_cons. unfold str_concat at 3. simpl foldr.
    fold (str_concat ((λ f, f +:+ sep) <$> before)).
    by rewrite !str_app_assoc.
Qed.

Lemma write_folders_concat (buf : string) (folders : list string) :
  write_folders buf folders = buf +:+ str_concat ((λ f, "/" +:+ f) <$> folders).
Proof.
  unfold write_folders. revert buf.
  induction folders as [|f folders IH]; intros buf; simpl fold_left.
  - by rewrite str_app_nil_r.
  - rewrite IH, fmap_cons. unfold str_concat at 2. simpl foldr.
    fold (str_concat ((λ f, "/" +:+ f) <$> folders)).
    by rewrite !str_app_assoc.
Qed.

Lemma count_to_src_absent (folders : list string) :
  "src" ∉ folders → count_to_src folders = length folders.
Proof.
  induction folders as [|f folders IH]; [done|].
  rewrite not_elem_of_cons. intros [Hne Hni]. simpl.
  destruct (decide (f = "src")); [done|]. by rewrite IH.
Qed.

Lemma count_to_src_present (folders : list string) :
  "src" ∈ folders →
  ∃ before after, folders = before ++ ("src" :: after) ∧ ("src" ∉ before)
                  ∧ count_to_src folders = length before.
Proof.
  induction folders as [|f folders IH]; [by intros ?%elem_of_nil|].
  intros Hin. simpl. destruct (decide (f = "src")) as [->|Hne].
  - exists [], folders. split_and!; [done | apply not_elem_of_nil | done].
  - apply elem_of_cons in Hin as [?|Hin]; [done|].
    destruct (IH Hin) as (before & after & -> & Hni & ->).
    exists (f :: before), after. split_and!; [done | | done].
    rewrite not_elem_of_cons. auto.
Qed.

Lemma RelativeFilePath_total (file : string) : ∃ r, RelativeFilePath file = Ok r.
Proof.
  unfold RelativeFilePath.
  destruct (decide (length (Split file "/") ≤ count_to_src (Split file "/")));
    [eauto|].
  unfold slice_from. destruct (decide _); [simpl; eauto | lia].
Qed.

End RelativePath.

(** ** Claims about the frame resolver *)

Section FrameResolverClaims.
Import Strings StringFacts.

(** C4, as the code has it: [packageAndName] moves everything up to and
    including the last slash into the package, appends to the package what
    precedes the first period of the remainder, and returns what follows that
    period as the function name, with the center dots replaced by periods:
    [Replace] writes a period for every center dot and returns a string
    without center dot as it is.  For [example.com/pkg/sub.Type·method] the
    package is [example.com/pkg/sub] and the function name is
    [Type.method]. *)
Theorem packageAndName_split :
  (∀ (fn : Func) (dir short rest : string),
     Name fn = dir +:+ short +:+ "." +:+ rest →
     dir = "" ∨ (∃ d, dir = d +:+ "/") →
     ¬ occurs "/" short → ¬ occurs "." short → ¬ occurs "/" rest →
     packageAndName (Some fn) = Ok (dir +:+ short, Replace rest "·" "." (-1)))
  ∧ (∀ a b : string,
       Replace (a +:+ "·" +:+ b) "·" "." (-1)
       = Replace a "·" "." (-1) +:+ "." +:+ Replace b "·" "." (-1))
  ∧ (∀ s : string, Index s "·" = (-1)%Z → Replace s "·" "." (-1) = s)
  ∧ packageAndName (Some sample_method) = Ok ("example.com/pkg/sub", "Type.method").
Proof.
  split_and!; [|apply Replace_center_dot|apply Replace_absent|done].
  intros fn dir short rest Hname [->|[d ->]] Hs1 Hs2 Hr.
  - by apply packageAndName_without_path.
  - by apply packageAndName_with_path.
Qed.

Lemma packageAndName_split_witness :
  Name (mkFunc "runtime/debug.*T·ptrmethod" (λ _, ("", 0%Z)))
    = "runtime/" +:+ "debug" +:+ "." +:+ "*T·ptrmethod"
  ∧ packageAndName (Some (mkFunc "runtime/debug.*T·ptrmethod" (λ _, ("", 0%Z))))
    = Ok ("runtime/debug", "*T.ptrmethod").
Proof.
  split; [reflexivity|].
  apply (proj1 packageAndName_split
           (mkFunc "runtime/debug.*T·ptrmethod" (λ _, ("", 0%Z)))
           "runtime/" "debug" "*T·ptrmethod").
  - reflexivity.
  - right. exists "runtime". reflexivity.
  - simpl. intuition discriminate.
  - simpl. intuition discriminate.
  - simpl. intuition discriminate.
Defined.

(** C4 as the specification words its example: the code does not return
    package [example.com/pkg/sub.Type] and function name [method]. *)
Lemma packageAndName_example_refuted :
  packageAndName (Some sample_method) ≠ Ok ("example.com/pkg/sub.Type", "method").
Proof. vm_compute. discriminate. Qed.

(** C5: [RelativeFilePath] strips everything up to and including the first
    path segment named [src]: [/home/build/src/pkg/file.go] becomes
    [/pkg/file.go]; a path with no segment named [src] is returned as it
    is; otherwise the path is the segments before [src], each followed by a
    slash, then [src], then the result. *)
Theorem RelativeFilePath_strips_src :
  RelativeFilePath "/home/build/src/pkg/file.go" = Ok "/pkg/file.go"
  ∧ (∀ file : string, "src" ∉ segments file → RelativeFilePath file = Ok file)
  ∧ (∀ file : string, "src" ∈ segments file →
       ∃ before after : list string,
         segments file = before ++ ("src" :: after)
         ∧ ("src" ∉ before)
         ∧ RelativeFilePath file = Ok (str_concat ((λ f, "/" +:+ f) <$> after))
         ∧ file = str_concat ((λ f, f +:+ "/") <$> before) +:+ "src"
                    +:+ str_concat ((λ f, "/" +:+ f) <$> after)).
Proof.
  split_and!.
  - done.
  - intros file Hni. unfold RelativeFilePath. fold (segments file).
    rewrite count_to_src_absent by done.
    by destruct (decide _); [|lia].
  - intros file Hin.
    destruct (count_to_src_present _ Hin) as (before & after & Hseg & Hni & Hcount).
    exists before, after. split_and!; [done..| |].
    + unfold RelativeFilePath. fold (segments file). rewrite Hcount, Hseg.
      rewrite length_app. simpl length.
      destruct (decide _); [lia|].
      unfold slice_from. rewrite length_app. simpl length.
      destruct (decide _); [|lia]. cbn [mbind result_bind].
      replace (length before + 1) with (length (before ++ ["src"]))
        by (rewrite length_app; done).
      rewrite (cons_middle "src" before after), app_assoc, drop_app_length.
      by rewrite write_folders_concat.
    + rewrite <- (Join_Split file "/") at 1. fold (segments file).
      rewrite Hseg. apply Join_as_concat.
Qed.

Lemma RelativeFilePath_strips_src_witness :
  (("src" ∉ segments "a/srcx/b") ∧ RelativeFilePath "a/srcx/b" = Ok "a/srcx/b")
  ∧ ("src" ∈ segments "/go/src/app/src/main.go"
     ∧ ∃ before after : list string,
         segments "/go/src/app/src/main.go" = before ++ ("src" :: after)
         ∧ ("src" ∉ before)
         ∧ RelativeFilePath "/go/src/app/src/main.go"
           = Ok (str_concat ((λ f, "/" +:+ f) <$> after))
         ∧ "/go/src/app/src/main.go"
           = str_concat ((λ f, f +:+ "/") <$> before) +:+ "src"
               +:+ str_concat ((λ f, "/" +:+ f) <$> after)).
Proof.
  assert ("src" ∉ segments "a/srcx/b") as H1.
  { change (segments "a/srcx/b") with ["a"; "srcx"; "b"].
    rewrite !not_elem_of_cons. split_and!; try discriminate.
    apply not_elem_of_nil. }
  assert ("src" ∈ segments "/go/src/app/src/main.go") as H2.
  { change (segments "/go/src/app/src/main.go")
      with [""; "go"; "src"; "app"; "src"; "main.go"].
    do 2 apply list_elem_of_further. apply list_elem_of_here. }
  split; (split; [done|]).
  - exact (proj1 (proj2 RelativeFilePath_strips_src) "a/srcx/b" H1).
  - exact (proj2 (proj2 RelativeFilePath_strips_src) _ H2).
Defined.

End FrameResolverClaims.

(** ** Running the monad *)

Lemma bind_Ok {A B} (m : M A) (k : A → M B) (w w1 : world) (a : A) :
  m w = Ok (a, w1) → (m ≫= k) w = k a w1.
Proof. intros H. unfold mbind, M_bind. by rewrite H. Qed.

Lemma bind_Ok_inv {A B} (m : M A) (k : A → M B) (w w' : world) (b : B) :
  (m ≫= k) w = Ok (b, w') → ∃ a w1, m w = Ok (a, w1) ∧ k a w1 = Ok (b, w').
Proof.
  unfold mbind, M_bind. destruct (m w) as [[a w1]| |]; [|done..]. eauto.
Qed.

Lemma load_Ok (a : nat) (o : StackableError) (w : world) :
  heap w !! a = Some o → load (Ref a) w = Ok (o, w).
Proof. intros H. unfold load. by rewrite H. Qed.

Lemma load_Ok_inv (p : ptr) (o : StackableError) (w w' : world) :
  load p w = Ok (o, w') → w' = w ∧ ∃ a, p = Ref a ∧ heap w !! a = Some o.
Proof.
  unfold load. destruct p as [|a]; [done|].
  destruct (heap w !! a) eqn:E; [|done]. intros [= -> ->]. eauto.
Qed.

Lemma store_Ok (a : nat) (o o' : StackableError) (w : world) :
  heap w !! a = Some o →
  store (Ref a) o' w
  = Ok (tt, mkWorld (<[a := o']> (heap w)) (next_id w) (MaxStackDepth w)
              (lookups w) (resolutions w)).
Proof.
  intros H%lookup_lt_Some. unfold store. by destruct (decide _); [|lia].
Qed.

(** ** [NewStackFrame] *)

Section Resolver.
Variable FuncForPC : Z → option Func.

(** [NewStackFrame] returns, whatever the state; it changes the traces only. *)
Lemma NewStackFrame_Ok (caller : Z) (w : world) :
  ∃ frame lk,
    NewStackFrame FuncForPC caller w
    = Ok (frame, mkWorld (heap w) (next_id w) (MaxStackDepth w)
                   (lookups w ++ lk) (resolutions w ++ [caller]))
    ∧ Caller frame = caller
    ∧ (caller = 0%Z → frame = mkStackFrame 0 "" 0 "" "" ∧ lk = [])
    ∧ (FuncForPC caller = None → frame = mkStackFrame caller "" 0 "" "")
    ∧ (∀ w2, ∃ w2', NewStackFrame FuncForPC caller w2 = Ok (frame, w2')).
Proof.
  unfold NewStackFrame, StackFrame_Func, mbind, M_bind, mret, M_ret,
    log_resolution, log_lookup, lift. simpl.
  destruct (decide (caller = 0%Z)) as [->|Hne].
  { exists (mkStackFrame 0 "" 0 "" ""), []. rewrite app_nil_r.
    split_and!; eauto. }
  simpl. destruct (FuncForPC caller) as [fn|] eqn:Hfn.
  - destruct (packageAndName_total (Some fn)) as [[pkg name] Hpn].
    rewrite Hpn. simpl.
    destruct (FileLine fn (uintptr_sub caller 1)) as [file line] eqn:Hfl.
    exists (mkStackFrame caller file line name pkg), [caller; caller; caller].
    rewrite <- !app_assoc. simpl.
    split_and!; [done..|]. intros w2. eauto.
  - exists (mkStackFrame caller "" 0 "" ""), [caller].
    split_and!; eauto. done.
Qed.

(** Inside one resolution of an address with symbol information,
    [runtime.FuncForPC] is called three times: by each of the three calls of
    the method [Func]. *)
Lemma NewStackFrame_lookups (caller : Z) (fn : Func) (w : world) :
  caller ≠ 0%Z → FuncForPC caller = Some fn →
  ∃ frame w',
    NewStackFrame FuncForPC caller w = Ok (frame, w')
    ∧ lookups w' = lookups w ++ [caller; caller; caller]
    ∧ resolutions w' = resolutions w ++ [caller].
Proof.
  intros Hne Hfn.
  unfold NewStackFrame, StackFrame_Func, mbind, M_bind, mret, M_ret,
    log_resolution, log_lookup, lift. simpl.
  destruct (decide (caller = 0%Z)); [done|]. simpl. rewrite Hfn.
  destruct (packageAndName_total (Some fn)) as [[pkg name] ->]. simpl.
  destruct (FileLine fn (uintptr_sub caller 1)) as [file line].
  eexists _, _. split; [done|]. simpl. by rewrite <- !app_assoc.
Qed.

End Resolver.

(** C8: [NewStackFrame] always returns a frame.  For the zero address it
    makes no symbol lookup and leaves file, function name and package empty
    and the line number zero; for a nonzero address without symbol
    information it returns a frame with the same empty fields. *)
Theorem NewStackFrame_total (FuncForPC : Z → option Func) (caller : Z) (w : world) :
  ∃ frame w',
    NewStackFrame FuncForPC caller w = Ok (frame, w')
    ∧ Caller frame = caller
    ∧ (caller = 0%Z → frame = mkStackFrame 0 "" 0 "" "" ∧ lookups w' = lookups w)
    ∧ (caller ≠ 0%Z → FuncForPC caller = None →
         frame = mkStackFrame caller "" 0 "" "").
Proof.
  destruct (NewStackFrame_Ok FuncForPC caller w)
    as (frame & lk & Hrun & Hcaller & Hzero & Hnone & _).
  eexists frame, _. split_and!; [exact Hrun | done | |].
  - intros H0. destruct (Hzero H0) as [-> ->]. simpl. by rewrite app_nil_r.
  - intros _ H. by apply Hnone.
Qed.

Lemma NewStackFrame_total_witness :
  (∃ frame w',
     NewStackFrame sample_FuncForPC 0 (mkWorld [] 0 50 [] []) = Ok (frame, w')
     ∧ frame = mkStackFrame 0 "" 0 "" "" ∧ lookups w' = [])
  ∧ (∃ frame w',
     NewStackFrame sample_FuncForPC 300 (mkWorld [] 0 50 [] []) = Ok (frame, w')
     ∧ frame = mkStackFrame 300 "" 0 "" "").
Proof.
  split.
  - destruct (NewStackFrame_total sample_FuncForPC 0 (mkWorld [] 0 50 [] []))
      as (frame & w' & Hrun & _ & Hzero & _).
    destruct (Hzero eq_refl) as [Hf Hl]. by exists frame, w'.
  - destruct (NewStackFrame_total sample_FuncForPC 300 (mkWorld [] 0 50 [] []))
      as (frame & w' & Hrun & _ & _ & Hnone).
    exists frame, w'. split; [done|]. apply Hnone; [lia | reflexivity].
Defined.

(** ** Capturing the stack: [newStackableError] and [Wrap] *)

Lemma runtime_Callers_slice (skip : Z) (buf stk : list Z) :
  slice_to (runtime_Callers skip buf stk).1 (runtime_Callers skip buf stk).2
  = Ok (take (length buf) (drop (Z.to_nat skip) stk)).
Proof.
  unfold runtime_Callers, slice_to. simpl.
  set (found := take (length buf) (drop (Z.to_nat skip) stk)).
  assert (length found ≤ length buf) by (unfold found; rewrite length_take; lia).
  rewrite length_app, length_drop.
  replace ((0 <=? Z.of_nat (length found))%Z
           && (Z.of_nat (length found)
               <=? Z.of_nat (length found + (length buf - length found)))%Z)
    with true by (symmetry; rewrite andb_true_iff, !Z.leb_le; lia).
  rewrite Nat2Z.id. by rewrite take_app_length.
Qed.

Section Capture.
Variables pcCallers pcNewStackableError pcWrap pcWrapPrefix : Z.

#[local] Abbreviation newStackableError := (newStackableError pcCallers pcNewStackableError).
#[local] Abbreviation Wrap := (Wrap pcCallers pcNewStackableError pcWrap).
#[local] Abbreviation WrapPrefix := (WrapPrefix pcCallers pcNewStackableError pcWrap pcWrapPrefix).

Lemma newStackableError_run (e : error) (skip : Z) (stk : list Z) (w : world) :
  newStackableError e skip stk w
  = if (MaxStackDepth w <? 0)%Z then Panic
    else Ok (Ref (length (heap w)),
             mkWorld (heap w ++ [mkStackableError e []
                        (take (Z.to_nat (MaxStackDepth w))
                           (drop (Z.to_nat (2 + skip))
                              (pcCallers :: pcNewStackableError :: stk)))
                        None])
               (next_id w) (MaxStackDepth w) (lookups w) (resolutions w)).
Proof.
  unfold newStackableError, mbind, M_bind, get, lift, make_uintptrs.
  cbn -[runtime_Callers].
  destruct (Z.ltb_spec (MaxStackDepth w) 0); [done|]. cbn -[runtime_Callers].
  pose proof (runtime_Callers_slice (2 + skip)
                (replicate (Z.to_nat (MaxStackDepth w)) 0%Z)
                (pcCallers :: pcNewStackableError :: stk)) as Hs.
  destruct (runtime_Callers _ _ _) as [buf n]. cbn [fst snd] in Hs. rewrite Hs.
  cbn. by rewrite length_replicate.
Qed.

(** What [Wrap] captures: the frames of its caller, at most [MaxStackDepth]. *)
Lemma Wrap_capture (stk : list Z) (d : Z) :
  take (Z.to_nat d) (drop (Z.to_nat (2 + 1)) (pcCallers :: pcNewStackableError :: pcWrap :: stk))
  = take (Z.to_nat d) stk.
Proof. done. Qed.

Lemma Wrap_foreign_Ok (id : nat) (msg : string) (stk : list Z) (w : world) :
  (0 ≤ MaxStackDepth w)%Z →
  Wrap (VErr (ErrForeign id msg)) stk w
  = Ok (Ref (length (heap w)),
        mkWorld (heap w ++ [mkStackableError (ErrForeign id msg) []
                              (take (Z.to_nat (MaxStackDepth w)) stk) None])
          (next_id w) (MaxStackDepth w) (lookups w) (resolutions w)).
Proof.
  intros Hd. unfold Wrap. rewrite newStackableError_run.
  destruct (Z.ltb_spec (MaxStackDepth w) 0); [lia|]. by rewrite Wrap_capture.
Qed.

Lemma Wrap_error_Ok (err : error) (msg : string) (stk : list Z) (w : world) :
  foreign_message err = Some msg → (0 ≤ MaxStackDepth w)%Z →
  Wrap (VErr err) stk w
  = Ok (Ref (length (heap w)),
        mkWorld (heap w ++ [mkStackableError err []
                              (take (Z.to_nat (MaxStackDepth w)) stk) None])
          (next_id w) (MaxStackDepth w) (lookups w) (resolutions w)).
Proof.
  intros Hmsg Hd. destruct err as [|id m|q|ty m]; try done.
  - by apply Wrap_foreign_Ok.
  - unfold Wrap. rewrite newStackableError_run.
    destruct (Z.ltb_spec (MaxStackDepth w) 0); [lia|]. by rewrite Wrap_capture.
Qed.

(** The two ways [Wrap] returns: with its argument, or with a new object
    whose cause is no [StackableError] and not nil. *)
Lemma Wrap_inv (e : value) (stk : list Z) (w w' : world) (p : ptr) :
  Wrap e stk w = Ok (p, w') →
  (e = VErr (ErrStackable p) ∧ w' = w)
  ∨ ((0 ≤ MaxStackDepth w)%Z ∧ (∀ q, e ≠ VErr (ErrStackable q)) ∧
     ∃ cause msg n,
       foreign_message cause = Some msg
       ∧ p = Ref (length (heap w))
       ∧ w' = mkWorld (heap w ++ [mkStackableError cause []
                                    (take (Z.to_nat (MaxStackDepth w)) stk) None])
                n (MaxStackDepth w) (lookups w) (resolutions w)).
Proof.
  unfold Wrap. destruct e as [[|id msg|q|ty msg]|text].
  - unfold mbind, M_bind, fmt_Errorf_v. rewrite newStackableError_run. simpl.
    destruct (Z.ltb_spec (MaxStackDepth w) 0); [done|]. intros [= <- <-].
    right. split_and!; [done..|]. eexists (ErrForeign _ _), _, _. by split_and!.
  - rewrite newStackableError_run.
    destruct (Z.ltb_spec (MaxStackDepth w) 0); [done|]. intros [= <- <-].
    right. split_and!; [done..|]. eexists (ErrForeign _ _), _, _. by split_and!.
  - intros [= <- <-]. by left.
  - rewrite newStackableError_run.
    destruct (Z.ltb_spec (MaxStackDepth w) 0); [done|]. intros [= <- <-].
    right. split_and!; [done..|]. eexists (ErrUncomparable _ _), _, _. by split_and!.
  - unfold mbind, M_bind, fmt_Errorf_v. rewrite newStackableError_run. simpl.
    destruct (Z.ltb_spec (MaxStackDepth w) 0); [done|]. intros [= <- <-].
    right. split_and!; [done..|]. eexists (ErrForeign _ _), _, _. by split_and!.
Qed.

End Capture.

(** ** The message of an error *)

Lemma Error_stackable (n : nat) (h : list StackableError) (a : nat) :
  Error (S n) h (ErrStackable (Ref a))
  = match h !! a with
    | None => Panic
    | Some err => msg ← Error n h (Err err); Ok (prefix_loop (Prefixes err) msg)
    end.
Proof. done. Qed.

Lemma Error_foreign (n : nat) (h : list StackableError) (id : nat) (msg : string) :
  Error (S n) h (ErrForeign id msg) = Ok msg.
Proof. done. Qed.




Lemma prefix_loop_snoc (prefixes : list string) (prefix msg : string) :
  prefix_loop (prefixes ++ [prefix]) msg = prefix +:+ ": " +:+ prefix_loop prefixes msg.
Proof. unfold prefix_loop. by rewrite fold_left_app. Qed.


(** ** [WrapPrefix] *)

Section Prefixing.
Variables pcCallers pcNewStackableError pcWrap pcWrapPrefix : Z.

#[local] Abbreviation Wrap' := (Wrap pcCallers pcNewStackableError pcWrap).
#[local] Abbreviation WrapPrefix' :=
  (WrapPrefix pcCallers pcNewStackableError pcWrap pcWrapPrefix).

Lemma WrapPrefix_stackable (a : nat) (o : StackableError) (prefix : string)
    (stk : list Z) (w : world) :
  heap w !! a = Some o →
  WrapPrefix' (VErr (ErrStackable (Ref a))) prefix stk w
  = Ok (Ref a,
        mkWorld (<[a := mkStackableError (Err o) (Prefixes o ++ [prefix]) (stack o) (frames o)]>
                   (heap w))
          (next_id w) (MaxStackDepth w) (lookups w) (resolutions w)).
Proof.
  intros Ho. unfold WrapPrefix.
  rewrite (bind_Ok _ _ w w (Ref a)) by done.
  rewrite (bind_Ok _ _ w w o) by by apply load_Ok.
  erewrite bind_Ok by by eapply store_Ok. done.
Qed.


Lemma WrapPrefix_error_Ok (err : error) (msg prefix : string) (stk : list Z) (w : world) :
  foreign_message err = Some msg → (0 ≤ MaxStackDepth w)%Z →
  WrapPrefix' (VErr err) prefix stk w
  = Ok (Ref (length (heap w)),
        mkWorld (heap w ++ [mkStackableError err [prefix]
                              (take (Z.to_nat (MaxStackDepth w)) (pcWrapPrefix :: stk))
                              None])
          (next_id w) (MaxStackDepth w) (lookups w) (resolutions w)).
Proof.
  intros Hmsg Hd. unfold WrapPrefix.
  erewrite bind_Ok by by eapply Wrap_error_Ok.
  erewrite bind_Ok by (apply load_Ok; simpl; apply list_lookup_middle; done).
  erewrite bind_Ok by (eapply store_Ok; simpl; apply list_lookup_middle; done).
  simpl. unfold mret, M_ret. do 3 f_equal.
  replace (length (heap w)) with (length (heap w) + 0) at 1 by lia.
  by rewrite insert_app_r.
Qed.

Lemma Error_of_foreign (n : nat) (h : list StackableError) (e : error) (msg : string) :
  foreign_message e = Some msg → Error (S n) h e = Ok msg.
Proof. destruct e; simpl; congruence. Qed.

End Prefixing.

(** ** Claims about wrapping and messages *)

(** C1: [Wrap] of a [*StackableError] returns that same pointer and leaves
    the whole state as it is: no object is made, no stack is captured, the
    addresses and prefixes of the object are untouched.  Whatever its
    argument, [Wrap] changes no existing object, and an object it makes
    never has a [*StackableError] as its cause. *)
Theorem Wrap_idempotent (pcCallers pcNewStackableError pcWrap : Z) :
  (∀ (p : ptr) (stk : list Z) (w : world),
     Wrap pcCallers pcNewStackableError pcWrap (VErr (ErrStackable p)) stk w = Ok (p, w))
  ∧ (∀ (e : value) (stk : list Z) (w w' : world) (p : ptr),
       Wrap pcCallers pcNewStackableError pcWrap e stk w = Ok (p, w') →
       (∀ a o, heap w !! a = Some o → heap w' !! a = Some o)
       ∧ (∀ a o, heap w !! a = None → heap w' !! a = Some o →
            ∀ q, Err o ≠ ErrStackable q)).
Proof.
  split; [done|].
  intros e stk w w' p Hrun.
  apply Wrap_inv in Hrun as [[-> ->]|(_ & _ & cause & msg & n & Hcause & -> & ->)].
  - split; [done|]. intros a o Hnone Hsome. congruence.
  - simpl. split.
    + intros a o Ho. by apply lookup_app_l_Some.
    + intros a o Hnone Hsome q. apply lookup_ge_None in Hnone.
      rewrite lookup_app_r in Hsome by done.
      apply list_lookup_singleton_Some in Hsome as [_ <-]. simpl.
      intros ->. done.
Qed.

Lemma Wrap_idempotent_witness :
  Wrap 1 2 3 (VErr (ErrForeign 8 "bang")) [300%Z] sample_world
  = Ok (Ref 1,
        mkWorld [mkStackableError (ErrForeign 7 "boom") ["a"] [100%Z; 0%Z; 200%Z] None;
                 mkStackableError (ErrForeign 8 "bang") [] [300%Z] None] 0 50 [] [])
  ∧ (∀ a o, heap sample_world !! a = Some o →
       [mkStackableError (ErrForeign 7 "boom") ["a"] [100%Z; 0%Z; 200%Z] None;
        mkStackableError (ErrForeign 8 "bang") [] [300%Z] None] !! a = Some o)
  ∧ (∀ a o, heap sample_world !! a = None →
       [mkStackableError (ErrForeign 7 "boom") ["a"] [100%Z; 0%Z; 200%Z] None;
        mkStackableError (ErrForeign 8 "bang") [] [300%Z] None] !! a = Some o →
       ∀ q, Err o ≠ ErrStackable q).
Proof.
  split; [reflexivity|].
  exact (proj2 (Wrap_idempotent 1 2 3) (VErr (ErrForeign 8 "bang")) [300%Z]
           sample_world _ (Ref 1) eq_refl).
Defined.

(** [Error] returns on an error whose chain of causes ends in an error that
    is not nil. *)
Lemma Error_chain (h : list StackableError) (e : error) (l : list error)
    (r : error) (m : string) :
  chain h e l → last l = Some r → foreign_message r = Some m →
  ∃ msg, ∀ n, length l ≤ n → Error n h e = Ok msg.
Proof.
  induction 1 as [e Hroot|a o l Ho Hl IH]; intros Hr Hm.
  - injection Hr as <-. exists m. intros [|n] Hn; [simpl in Hn; lia|].
    by apply Error_of_foreign.
  - destruct l as [|x l']; [inversion Hl|]. rewrite last_cons_cons in Hr.
    destruct (IH Hr Hm) as [msg Hmsg]. exists (prefix_loop (Prefixes o) msg).
    intros [|n] Hn; [simpl in Hn; lia|].
    rewrite Error_stackable, Ho, Hmsg; [done|simpl in *; lia].
Qed.

(** C2: [Error] runs the prefixes, oldest first, over the message of the
    cause, each step giving [prefix: message], so the prefix appended last
    comes first; it returns whenever [Error] of the cause does, which is so
    when the cause is no [StackableError] and not nil, and when the chain
    of causes ends in such an error; for an error [err] that is no
    [StackableError], [WrapPrefix(WrapPrefix(err, "a"), "b").Error()]
    returns [b: a: ] followed by [err.Error()]. *)
Theorem Error_prefix_order (pcCallers pcNewStackableError pcWrap pcWrapPrefix : Z) :
  (∀ (n : nat) (h : list StackableError) (a : nat) (o : StackableError) (msg : string),
     h !! a = Some o → Error n h (Err o) = Ok msg →
     Error (S n) h (ErrStackable (Ref a)) = Ok (prefix_loop (Prefixes o) msg))
  ∧ (∀ (n : nat) (h : list StackableError) (a : nat) (o : StackableError) (msg : string),
       h !! a = Some o → foreign_message (Err o) = Some msg →
       Error (S n) h (Err o) = Ok msg
       ∧ Error (S (S n)) h (ErrStackable (Ref a)) = Ok (prefix_loop (Prefixes o) msg))
  ∧ (∀ msg : string, prefix_loop [] msg = msg)
  ∧ (∀ (prefixes : list string) (prefix msg : string),
       prefix_loop (prefixes ++ [prefix]) msg
       = prefix +:+ ": " +:+ prefix_loop prefixes msg)
  ∧ (∀ (err : error) (msg : string) (stk1 stk2 : list Z) (w : world),
       foreign_message err = Some msg → (0 ≤ MaxStackDepth w)%Z →
       ∃ p w1 w2,
         WrapPrefix pcCallers pcNewStackableError pcWrap pcWrapPrefix
           (VErr err) "a" stk1 w = Ok (p, w1)
         ∧ WrapPrefix pcCallers pcNewStackableError pcWrap pcWrapPrefix
             (VErr (ErrStackable p)) "b" stk2 w1 = Ok (p, w2)
         ∧ ∀ n, Error (S n) (heap w1) err = Ok msg
                ∧ Error (S (S n)) (heap w2) (ErrStackable p) = Ok ("b: a: " +:+ msg))
  ∧ (∀ (h : list StackableError) (a : nat) (o : StackableError) (l : list error)
       (r : error) (m : string),
       h !! a = Some o → chain h (Err o) l →
       last l = Some r → foreign_message r = Some m →
       ∃ msg, ∀ n, length l ≤ n →
         Error n h (Err o) = Ok msg
         ∧ Error (S n) h (ErrStackable (Ref a)) = Ok (prefix_loop (Prefixes o) msg)).
Proof.
  split_and!.
  - intros n h a o msg Ho Hmsg. by rewrite Error_stackable, Ho, Hmsg.
  - intros n h a o msg Ho Hmsg.
    pose proof (Error_of_foreign n h _ _ Hmsg) as Hcause. split; [done|].
    by rewrite Error_stackable, Ho, Hcause.
  - done.
  - apply prefix_loop_snoc.
  - intros err msg stk1 stk2 w Hmsg Hd.
    eexists _, _, _. split; [by eapply WrapPrefix_error_Ok|].
    split.
    + apply WrapPrefix_stackable. simpl. by apply list_lookup_middle.
    + intros n. pose proof (Error_of_foreign n (heap w) _ _ Hmsg) as Hcause.
      split; [by eapply Error_of_foreign|].
      simpl heap. rewrite Error_stackable.
      rewrite list_lookup_insert_eq
        by (rewrite length_app; simpl; lia).
      cbn [Err Prefixes]. by rewrite (Error_of_foreign n _ _ _ Hmsg).
  - intros h a o l r m Ho Hl Hr Hm.
    destruct (Error_chain h _ _ _ _ Hl Hr Hm) as [msg Hmsg]. exists msg.
    intros n Hn. split; [by apply Hmsg|].
    by rewrite Error_stackable, Ho, Hmsg.
Qed.

Lemma Error_prefix_order_witness :
  ((heap sample_world !! 0
    = Some (mkStackableError (ErrForeign 7 "boom") ["a"] [100%Z; 0%Z; 200%Z] None)
    ∧ Error 1 (heap sample_world) (ErrForeign 7 "boom") = Ok "boom")
   ∧ Error 2 (heap sample_world) (ErrStackable (Ref 0)) = Ok (prefix_loop ["a"] "boom"))
  ∧ (foreign_message (ErrForeign 7 "boom") = Some "boom"
     ∧ Error 1 (heap sample_world) (ErrForeign 7 "boom") = Ok "boom"
     ∧ Error 2 (heap sample_world) (ErrStackable (Ref 0)) = Ok (prefix_loop ["a"] "boom"))
  ∧ ((foreign_message (ErrUncomparable 3 "bang") = Some "bang"
      ∧ (0 ≤ MaxStackDepth sample_world)%Z)
     ∧ ∃ p w1 w2,
         WrapPrefix 1 2 3 4 (VErr (ErrUncomparable 3 "bang")) "a" [300%Z] sample_world
         = Ok (p, w1)
         ∧ WrapPrefix 1 2 3 4 (VErr (ErrStackable p)) "b" [400%Z] w1 = Ok (p, w2)
         ∧ ∀ n, Error (S n) (heap w1) (ErrUncomparable 3 "bang") = Ok "bang"
                ∧ Error (S (S n)) (heap w2) (ErrStackable p) = Ok ("b: a: " +:+ "bang"))
  ∧ ((chain [mkStackableError (ErrStackable (Ref 1)) ["x"; "y"] [] None;
             mkStackableError (ErrForeign 7 "boom") ["a"] [] None]
        (ErrStackable (Ref 1)) [ErrStackable (Ref 1); ErrForeign 7 "boom"]
      ∧ foreign_message (ErrForeign 7 "boom") = Some "boom")
     ∧ ∃ msg, ∀ n, 2 ≤ n →
         Error n [mkStackableError (ErrStackable (Ref 1)) ["x"; "y"] [] None;
                  mkStackableError (ErrForeign 7 "boom") ["a"] [] None]
           (ErrStackable (Ref 1)) = Ok msg
         ∧ Error (S n) [mkStackableError (ErrStackable (Ref 1)) ["x"; "y"] [] None;
                        mkStackableError (ErrForeign 7 "boom") ["a"] [] None]
             (ErrStackable (Ref 0)) = Ok (prefix_loop ["x"; "y"] msg)).
Proof.
  split; [|split; [|split]].
  - split; [by split|].
    exact (proj1 (Error_prefix_order 1 2 3 4) 1 (heap sample_world) 0 _ "boom"
             eq_refl eq_refl).
  - split; [reflexivity|].
    exact (proj1 (proj2 (Error_prefix_order 1 2 3 4)) 0 (heap sample_world) 0
             (mkStackableError (ErrForeign 7 "boom") ["a"] [100%Z; 0%Z; 200%Z] None)
             "boom" eq_refl eq_refl).
  - split; [split; [reflexivity | simpl; lia]|].
    apply (proj1 (proj2 (proj2 (proj2 (proj2 (Error_prefix_order 1 2 3 4)))))
             (ErrUncomparable 3 "bang") "bang" [300%Z] [400%Z] sample_world);
      [reflexivity | simpl; lia].
  - assert (chain [mkStackableError (ErrStackable (Ref 1)) ["x"; "y"] [] None;
                   mkStackableError (ErrForeign 7 "boom") ["a"] [] None]
              (ErrStackable (Ref 1)) [ErrStackable (Ref 1); ErrForeign 7 "boom"]) as Hl.
    { econstructor; [reflexivity|]. by constructor. }
    split; [by split|].
    exact (proj2 (proj2 (proj2 (proj2 (proj2 (Error_prefix_order 1 2 3 4)))))
             [mkStackableError (ErrStackable (Ref 1)) ["x"; "y"] [] None;
              mkStackableError (ErrForeign 7 "boom") ["a"] [] None]
             0 (mkStackableError (ErrStackable (Ref 1)) ["x"; "y"] [] None)
             _ (ErrForeign 7 "boom") "boom" eq_refl Hl eq_refl eq_refl).
Defined.



(** ** Chain equality: [Is] *)

Section ChainEquality.
Variable h : list StackableError.


Lemma same_uncomparable_root_r (e original : error) :
  (∀ ty msg, original ≠ ErrUncomparable ty msg) → same_uncomparable e original = false.
Proof.
  intros H. destruct e as [| | |t m]; try done.
  destruct original as [| | |t' m']; try done. by destruct (H t' m').
Qed.

Lemma same_uncomparable_stackable_r (e : error) (p : ptr) :
  same_uncomparable e (ErrStackable p) = false.
Proof. by apply same_uncomparable_root_r. Qed.

Lemma Is_unfold (n : nat) (e original : error) :
  Is (S n) h e original
  = if same_uncomparable e original then Panic
    else if decide (e = original) then Ok true
    else match e with
         | ErrStackable p => o ← deref h p; Is n h (Err o) original
         | _ =>
             match original with
             | ErrStackable p => o ← deref h p; Is n h e (Err o)
             | _ => Ok false
             end
         end.
Proof.
  cbn [Is]. unfold interface_eq, bool_decide.
  destruct (same_uncomparable e original); [done|].
  by destruct (decide_rel eq e original).
Qed.

Lemma deref_Ok (a : nat) (o : StackableError) : h !! a = Some o → deref h (Ref a) = Ok o.
Proof. intros H. unfold deref. by rewrite H. Qed.


Lemma chain_nonempty (e : error) (l : list error) : chain h e l → ∃ l', l = e :: l'.
Proof. destruct 1; eauto. Qed.







End ChainEquality.




(** ** Resolving the frames: [StackFrames] *)

Section Frames.
Variable FuncForPC : Z → option Func.

Lemma set_frame_Ok (a i : nat) (o : StackableError) (fs : list StackFrame)
    (f : StackFrame) (w : world) :
  heap w !! a = Some o → frames o = Some fs → i < length fs →
  set_frame (Ref a) i f w
  = Ok (tt, mkWorld (<[a := mkStackableError (Err o) (Prefixes o) (stack o)
                             (Some (<[i := f]> fs))]> (heap w))
              (next_id w) (MaxStackDepth w) (lookups w) (resolutions w)).
Proof.
  intros Ho Hfs Hi. unfold set_frame.
  rewrite (bind_Ok _ _ w w o) by by apply load_Ok.
  rewrite Hfs. destruct (decide _); [|lia]. by eapply store_Ok.
Qed.

(** The loop fills the cache from index [i] on with the frames of [pcs],
    in order, one resolution for each. *)
Lemma resolve_loop_spec (a : nat) (pcs : list Z) :
  ∀ (i : nat) (w : world) (o : StackableError) (fs : list StackFrame),
    heap w !! a = Some o → frames o = Some fs → i + length pcs ≤ length fs →
    ∃ new lk,
      resolve_loop FuncForPC (Ref a) i pcs w
      = Ok (tt, mkWorld (<[a := mkStackableError (Err o) (Prefixes o) (stack o)
                                 (Some (take i fs ++ new ++ drop (i + length pcs) fs))]>
                           (heap w))
                  (next_id w) (MaxStackDepth w) (lookups w ++ lk) (resolutions w ++ pcs))
      ∧ Forall2 (resolves FuncForPC) pcs new.
Proof.
  induction pcs as [|pc rest IH]; intros i w o fs Ho Hfs Hlen.
  - exists [], []. split; [|constructor]. simpl.
    rewrite Nat.add_0_r, take_drop, !app_nil_r.
    rewrite list_insert_id; [by destruct w|].
    rewrite Ho. f_equal. destruct o. simpl in *. by subst.
  - simpl in Hlen. simpl resolve_loop.
    destruct (NewStackFrame_Ok FuncForPC pc w) as (f & lk1 & Hrun & _ & _ & _ & Hany).
    erewrite bind_Ok by exact Hrun.
    erewrite bind_Ok; last first.
    { apply (set_frame_Ok a i o fs f); [done..|lia]. }
    simpl.
    set (o1 := mkStackableError (Err o) (Prefixes o) (stack o) (Some (<[i := f]> fs))).
    destruct (IH (S i)
                (mkWorld (<[a := o1]> (heap w)) (next_id w) (MaxStackDepth w)
                   (lookups w ++ lk1) (resolutions w ++ [pc]))
                o1 (<[i := f]> fs)) as (new & lk & -> & Hnew).
    { simpl. apply list_lookup_insert_eq. by eapply lookup_lt_Some. }
    { done. }
    { rewrite length_insert. lia. }
    exists (f :: new), (lk1 ++ lk). split.
    + simpl. rewrite list_insert_insert_eq, <- !app_assoc. simpl.
      rewrite (take_S_r _ _ f) by (apply list_lookup_insert_eq; lia).
      rewrite take_insert_ge by done.
      rewrite drop_insert_lt by lia.
      rewrite <- app_assoc, Nat.add_succ_r. done.
    + constructor; [|done]. exists w. eexists. exact Hrun.
Qed.

(** The first call: every captured address is resolved, once and in order,
    and the frames are stored in the object. *)
Lemma StackFrames_fresh (a : nat) (o : StackableError) (w : world) :
  heap w !! a = Some o → frames o = None →
  ∃ fs lk,
    StackFrames FuncForPC (Ref a) w
    = Ok (fs, mkWorld (<[a := mkStackableError (Err o) (Prefixes o) (stack o) (Some fs)]>
                         (heap w))
                (next_id w) (MaxStackDepth w) (lookups w ++ lk)
                (resolutions w ++ stack o))
    ∧ Forall2 (resolves FuncForPC) (stack o) fs.
Proof.
  intros Ho Hnone. unfold StackFrames.
  rewrite (bind_Ok _ _ w w o) by by apply load_Ok.
  rewrite Hnone.
  set (o1 := mkStackableError (Err o) (Prefixes o) (stack o)
               (Some (replicate (length (stack o)) zero_frame))).
  set (w1 := mkWorld (<[a := o1]> (heap w)) (next_id w) (MaxStackDepth w)
               (lookups w) (resolutions w)).
  destruct (resolve_loop_spec a (stack o) 0 w1 o1 (replicate (length (stack o)) zero_frame))
    as (new & lk & Hrun & Hnew).
  { simpl. apply list_lookup_insert_eq. by eapply lookup_lt_Some. }
  { done. }
  { rewrite length_replicate. lia. }
  exists new, lk. split; [|done].
  erewrite (bind_Ok (_ ≫= _)); last first.
  { erewrite bind_Ok by by eapply store_Ok. exact Hrun. }
  simpl. rewrite list_insert_insert_eq.
  erewrite bind_Ok; last first.
  { apply load_Ok. simpl. apply list_lookup_insert_eq. by eapply lookup_lt_Some. }
  simpl. rewrite drop_ge by (rewrite length_replicate; lia).
  by rewrite app_nil_r.
Qed.

(** Any later call returns the stored frames and changes nothing. *)
Lemma StackFrames_cached (a : nat) (o : StackableError) (fs : list StackFrame) (w : world) :
  heap w !! a = Some o → frames o = Some fs →
  StackFrames FuncForPC (Ref a) w = Ok (fs, w).
Proof.
  intros Ho Hfs. unfold StackFrames.
  rewrite (bind_Ok _ _ w w o) by by apply load_Ok.
  rewrite Hfs. erewrite bind_Ok by done.
  rewrite (bind_Ok _ _ w w o) by by apply load_Ok.
  by rewrite Hfs.
Qed.

End Frames.

(** ** The text of the stack: [Stack] and [StackTrace] *)

Lemma lift_Ok_inv {A} (r : result A) (a : A) (w w' : world) :
  lift r w = Ok (a, w') → w' = w ∧ r = Ok a.
Proof. unfold lift. destruct r; simpl; [|done..]. by intros [= -> ->]. Qed.

Lemma StackFrame_String_total (frame : StackFrame) : ∃ line, renders frame line.
Proof.
  unfold renders, StackFrame_String.
  destruct (RelativeFilePath_total (File frame)) as [path ->]. simpl. eauto.
Qed.

Lemma renders_all (fs : list StackFrame) : ∃ lines, Forall2 renders fs lines.
Proof.
  induction fs as [|f fs [lines IH]]; [by exists []|].
  destruct (StackFrame_String_total f) as [line Hline].
  exists (line :: lines). by constructor.
Qed.

(** The loop of [Stack] appends every line, followed by a line feed. *)
Lemma stack_loop_concat (fs : list StackFrame) (lines : list string) (buf : string) :
  Forall2 renders fs lines →
  stack_loop buf fs = Ok (buf +:+ str_concat ((λ line, line +:+ LF) <$> lines)).
Proof.
  intros H. revert buf. induction H as [|f line fs lines Hline _ IH]; intros buf.
  - simpl. unfold str_concat. simpl. by rewrite StringFacts.str_app_nil_r.
  - simpl stack_loop. rewrite Hline. cbn [mbind result_bind]. rewrite IH.
    rewrite fmap_cons. unfold str_concat. simpl foldr.
    by rewrite !StringFacts.str_app_assoc.
Qed.

Section StackText.
Variable FuncForPC : Z → option Func.

(** [StackFrames] returns for every pointer to an object. *)
Lemma StackFrames_Ok (a : nat) (o : StackableError) (w : world) :
  heap w !! a = Some o →
  ∃ fs w',
    StackFrames FuncForPC (Ref a) w = Ok (fs, w')
    ∧ heap w' = <[a := mkStackableError (Err o) (Prefixes o) (stack o) (Some fs)]> (heap w)
    ∧ next_id w' = next_id w ∧ MaxStackDepth w' = MaxStackDepth w
    ∧ (∀ fs0, frames o = Some fs0 → fs = fs0 ∧ w' = w)
    ∧ (frames o = None →
         resolutions w' = resolutions w ++ stack o
         ∧ Forall2 (resolves FuncForPC) (stack o) fs).
Proof.
  intros Ho. destruct (frames o) as [fs0|] eqn:Hfs.
  - exists fs0, w. split; [by eapply StackFrames_cached|].
    split_and!; try done.
    + symmetry. apply list_insert_id. rewrite Ho. f_equal. destruct o; simpl in *.
      by subst.
    + by intros fs1 [= ->].
  - destruct (StackFrames_fresh FuncForPC a o w Ho Hfs) as (fs & lk & Hrun & Hres).
    eexists fs, _. split; [exact Hrun|]. simpl. split_and!; done.
Qed.

Lemma Stack_Ok (a : nat) (w w' : world)
    (fs : list StackFrame) (lines : list string) :
  StackFrames FuncForPC (Ref a) w = Ok (fs, w') →
  Forall2 renders fs lines →
  Stack FuncForPC (Ref a) w = Ok (str_concat ((λ line, line +:+ LF) <$> lines), w').
Proof.
  intros Hrun Hlines. unfold Stack. erewrite bind_Ok by exact Hrun.
  unfold lift. by rewrite (stack_loop_concat fs lines).
Qed.

End StackText.

(** C9: [StackTrace] returns [ERROR: ], the message of [Error], a line feed
    and the text of [Stack]; [Stack] is the line of every frame that
    [StackFrames] returns, each followed by a line feed, in the order of the
    frames, which on the first call is the order of the captured addresses. *)
Theorem StackTrace_format (FuncForPC : Z → option Func) (fuel : nat) (err : ptr)
    (w : world) (msg : string) :
  Error fuel (heap w) (ErrStackable err) = Ok msg →
  ∃ (fs : list StackFrame) (lines : list string) (w' : world),
    StackFrames FuncForPC err w = Ok (fs, w')
    ∧ Forall2 renders fs lines
    ∧ Stack FuncForPC err w = Ok (str_concat ((λ line, line +:+ LF) <$> lines), w')
    ∧ StackTrace FuncForPC fuel err w
      = Ok ("ERROR: " +:+ msg +:+ LF +:+ str_concat ((λ line, line +:+ LF) <$> lines), w')
    ∧ (∀ a o, err = Ref a → heap w !! a = Some o → frames o = None →
         Forall2 (resolves FuncForPC) (stack o) fs).
Proof.
  intros Hmsg.
  destruct fuel as [|n]; [done|]. destruct err as [|a]; [done|].
  pose proof Hmsg as Hmsg'. rewrite Error_stackable in Hmsg'.
  destruct (heap w !! a) as [o|] eqn:Ho; [|done]. clear Hmsg'.
  destruct (StackFrames_Ok FuncForPC a o w Ho) as (fs & w' & Hrun & _ & _ & _ & _ & Hnew).
  destruct (renders_all fs) as [lines Hlines].
  exists fs, lines, w'. split_and!; [done..| | |].
  - by eapply Stack_Ok.
  - unfold StackTrace. rewrite (bind_Ok _ _ w w w) by done.
    rewrite (bind_Ok _ _ w w msg) by (unfold lift; by rewrite Hmsg).
    erewrite bind_Ok by by eapply Stack_Ok. done.
  - intros a' o' [= <-] Ho' Hnone. assert (o' = o) as -> by congruence. by apply Hnew.
Qed.

Lemma StackTrace_format_witness :
  Error 2 (heap sample_world) (ErrStackable (Ref 0)) = Ok "a: boom"
  ∧ ∃ (fs : list StackFrame) (lines : list string) (w' : world),
      StackFrames sample_FuncForPC (Ref 0) sample_world = Ok (fs, w')
      ∧ Forall2 renders fs lines
      ∧ Stack sample_FuncForPC (Ref 0) sample_world
        = Ok (str_concat ((λ line, line +:+ LF) <$> lines), w')
      ∧ StackTrace sample_FuncForPC 2 (Ref 0) sample_world
        = Ok ("ERROR: " +:+ "a: boom" +:+ LF
                +:+ str_concat ((λ line, line +:+ LF) <$> lines), w')
      ∧ (∀ a o, Ref 0 = Ref a → heap sample_world !! a = Some o → frames o = None →
           Forall2 (resolves sample_FuncForPC) (stack o) fs).
Proof.
  split; [reflexivity|].
  exact (StackTrace_format sample_FuncForPC 2 (Ref 0) sample_world "a: boom" eq_refl).
Defined.

(** ** What a run preserves *)

Lemma obj_le_refl (o : StackableError) : obj_le o o.
Proof. split_and!; try done. congruence. Qed.

Lemma obj_le_trans (o1 o2 o3 : StackableError) : obj_le o1 o2 → obj_le o2 o3 → obj_le o1 o3.
Proof.
  intros (He1 & Hs1 & Hf1 & Hn1) (He2 & Hs2 & Hf2 & Hn2).
  split_and!; [congruence | congruence | auto |].
  intros Hnone fs Hfs. destruct (frames o2) as [fs2|] eqn:E.
  - rewrite (Hf2 fs2 eq_refl) in Hfs. injection Hfs as <-. by apply Hn1.
  - rewrite <- Hs1. by apply Hn2.
Qed.

Lemma world_le_refl (w : world) : world_le w w.
Proof. intros a o Ho. exists o. split; [done | apply obj_le_refl]. Qed.

Lemma world_le_trans (w1 w2 w3 : world) : world_le w1 w2 → world_le w2 w3 → world_le w1 w3.
Proof.
  intros H12 H23 a o1 Ho1.
  destruct (H12 a o1 Ho1) as (o2 & Ho2 & Hle12).
  destruct (H23 a o2 Ho2) as (o3 & Ho3 & Hle23).
  exists o3. split; [done|]. by eapply obj_le_trans.
Qed.

Lemma world_le_insert (w w' : world) (a : nat) (o o' : StackableError) :
  heap w !! a = Some o → obj_le o o' → heap w' = <[a := o']> (heap w) → world_le w w'.
Proof.
  intros Ho Hle Hheap b ob Hob. rewrite Hheap.
  destruct (decide (b = a)) as [->|Hne].
  - exists o'. split; [|congruence].
    apply list_lookup_insert_eq. by eapply lookup_lt_Some.
  - exists ob. split; [|apply obj_le_refl]. by rewrite list_lookup_insert_ne.
Qed.

Lemma world_le_heap (w w' : world) : heap w' = heap w → world_le w w'.
Proof. intros Hheap a o Ho. exists o. rewrite Hheap. split; [done | apply obj_le_refl]. Qed.

Section Preservation.
Variable FuncForPC : Z → option Func.
Variables pcCallers pcNewStackableError pcWrap pcWrapPrefix : Z.

#[local] Abbreviation run_op' :=
  (run_op FuncForPC pcCallers pcNewStackableError pcWrap pcWrapPrefix).
#[local] Abbreviation steps' :=
  (steps FuncForPC pcCallers pcNewStackableError pcWrap pcWrapPrefix).

(** An object new after [Wrap] holds at most [MaxStackDepth] addresses and
    an empty frames cache. *)
Lemma Wrap_effect (e : value) (stk : list Z) (w w' : world) (p : ptr) :
  Wrap pcCallers pcNewStackableError pcWrap e stk w = Ok (p, w') →
  world_le w w'
  ∧ (∀ a o, heap w !! a = None → heap w' !! a = Some o →
       p = Ref a ∧ a = length (heap w)
       ∧ (Z.of_nat (length (stack o)) ≤ MaxStackDepth w)%Z ∧ frames o = None)
  ∧ (length (heap w') = length (heap w) ∨ p = Ref (length (heap w))).
Proof.
  intros [[-> ->]|(Hd & _ & cause & msg & n & Hcause & -> & ->)]%Wrap_inv.
  - split_and!; [apply world_le_refl | | by left]. intros a o Hnone Hsome. congruence.
  - simpl. split_and!; [| |by right].
    + intros a o Ho. exists o. split; [|apply obj_le_refl]. simpl.
      by apply lookup_app_l_Some.
    + intros a o Hnone Hsome. apply lookup_ge_None in Hnone.
      pose proof (lookup_lt_Some _ _ _ Hsome) as Hlt.
      rewrite length_app in Hlt. simpl in Hlt.
      assert (a = length (heap w)) as -> by lia.
      rewrite list_lookup_middle in Hsome by done. injection Hsome as <-. simpl.
      split_and!; [done..| |done]. rewrite length_take. lia.
Qed.

Lemma WrapPrefix_effect (e : value) (prefix : string) (stk : list Z)
    (w w' : world) (p : ptr) :
  WrapPrefix pcCallers pcNewStackableError pcWrap pcWrapPrefix e prefix stk w = Ok (p, w') →
  world_le w w'
  ∧ (∀ a o, heap w !! a = None → heap w' !! a = Some o →
       (Z.of_nat (length (stack o)) ≤ MaxStackDepth w)%Z ∧ frames o = None).
Proof.
  unfold WrapPrefix.
  intros (q & w1 & Hwrap & Hrest)%bind_Ok_inv.
  apply bind_Ok_inv in Hrest as (o & w1' & Hload & Hrest).
  apply load_Ok_inv in Hload as (-> & a & -> & Ho).
  apply bind_Ok_inv in Hrest as ([] & w2 & Hstore & [= <- <-]).
  rewrite (store_Ok a o) in Hstore by done. injection Hstore as <-.
  destruct (Wrap_effect _ _ _ _ _ Hwrap) as (Hle & Hnew & Hlen).
  split.
  - eapply world_le_trans; [exact Hle|].
    eapply (world_le_insert w1 _ a o); [done| |done].
    split_and!; simpl; try done. congruence.
  - simpl. intros b ob Hnone Hsome.
    destruct (decide (b = a)) as [->|Hne].
    + rewrite list_lookup_insert_eq in Hsome by by eapply lookup_lt_Some.
      injection Hsome as <-. simpl.
      destruct (Hnew a o Hnone Ho) as (_ & _ & ? & ?). done.
    + rewrite list_lookup_insert_ne in Hsome by done.
      destruct (Hnew b ob Hnone Hsome) as (_ & _ & ? & ?). done.
Qed.

Lemma StackFrames_effect (err : ptr) (w w' : world) (fs : list StackFrame) :
  StackFrames FuncForPC err w = Ok (fs, w') →
  world_le w w' ∧ length (heap w') = length (heap w).
Proof.
  intros Hrun. pose proof Hrun as Hrun'. unfold StackFrames in Hrun'.
  apply bind_Ok_inv in Hrun' as (o & w1 & Hload & _).
  apply load_Ok_inv in Hload as (-> & a & -> & Ho).
  destruct (StackFrames_Ok FuncForPC a o w Ho)
    as (fs1 & w1 & Hrun1 & Hheap & _ & _ & Hcached & Hfresh).
  rewrite Hrun in Hrun1. injection Hrun1 as <- <-.
  split; [|by rewrite Hheap, length_insert].
  eapply (world_le_insert w w' a o); [done| |exact Hheap].
  split_and!; try done; simpl.
  - intros fs0 Hfs0. destruct (Hcached fs0 Hfs0) as [-> _]. done.
  - intros Hnone fs1 [= <-]. destruct (Hfresh Hnone) as [_ H2].
    symmetry. by eapply Forall2_length.
Qed.

Lemma Stack_effect (err : ptr) (w w' : world) (s : string) :
  Stack FuncForPC err w = Ok (s, w') →
  world_le w w' ∧ length (heap w') = length (heap w).
Proof.
  unfold Stack. intros (fs & w1 & Hrun & Hlift)%bind_Ok_inv.
  apply lift_Ok_inv in Hlift as [-> _]. by eapply StackFrames_effect.
Qed.

Lemma StackTrace_effect (fuel : nat) (err : ptr) (w w' : world) (s : string) :
  StackTrace FuncForPC fuel err w = Ok (s, w') →
  world_le w w' ∧ length (heap w') = length (heap w).
Proof.
  unfold StackTrace. intros (w0 & w1 & [= <- <-] & Hrest)%bind_Ok_inv.
  apply bind_Ok_inv in Hrest as (msg & w1 & Hlift & Hrest).
  apply lift_Ok_inv in Hlift as [-> _].
  apply bind_Ok_inv in Hrest as (st & w2 & Hstack & [= _ <-]).
  by eapply Stack_effect.
Qed.

(** Every operation keeps the objects there are, and an object it makes
    holds at most [MaxStackDepth] addresses and an empty frames cache. *)
Lemma run_op_effect (o : op) (w w' : world) :
  run_op' o w = Ok (tt, w') →
  world_le w w'
  ∧ (∀ a ob, heap w !! a = None → heap w' !! a = Some ob →
       (Z.of_nat (length (stack ob)) ≤ MaxStackDepth w)%Z ∧ frames ob = None).
Proof.
  assert (∀ w1 w2 : world, length (heap w2) = length (heap w1) →
            ∀ a ob, heap w1 !! a = None → heap w2 !! a = Some ob → False) as Hsame.
  { intros w1 w2 Hlen a ob Hnone%lookup_ge_None Hsome%lookup_lt_Some. lia. }
  destruct o as [e stk|e prefix stk|err|err|fuel err|d]; simpl.
  - intros (p & w1 & Hrun & [= <-])%bind_Ok_inv.
    destruct (Wrap_effect _ _ _ _ _ Hrun) as (Hle & Hnew & _).
    split; [done|]. intros a ob Hnone Hsome.
    destruct (Hnew a ob Hnone Hsome) as (_ & _ & ? & ?). done.
  - intros (p & w1 & Hrun & [= <-])%bind_Ok_inv.
    by eapply WrapPrefix_effect.
  - intros (fs & w1 & Hrun & [= <-])%bind_Ok_inv.
    destruct (StackFrames_effect _ _ _ _ Hrun) as [Hle Hlen].
    split; [done|]. intros a ob Hnone Hsome. by destruct (Hsame w w1 Hlen a ob).
  - intros (s & w1 & Hrun & [= <-])%bind_Ok_inv.
    destruct (Stack_effect _ _ _ _ Hrun) as [Hle Hlen].
    split; [done|]. intros a ob Hnone Hsome. by destruct (Hsame w w1 Hlen a ob).
  - intros (s & w1 & Hrun & [= <-])%bind_Ok_inv.
    destruct (StackTrace_effect _ _ _ _ _ Hrun) as [Hle Hlen].
    split; [done|]. intros a ob Hnone Hsome. by destruct (Hsame w w1 Hlen a ob).
  - intros [= <-]. split; [by apply world_le_heap|].
    simpl. intros a ob Hnone Hsome. congruence.
Qed.

Lemma steps_world_le (w w' : world) (ops : list op) : steps' w ops w' → world_le w w'.
Proof.
  induction 1 as [w|w w1 w2 o ops Hrun _ IH]; [apply world_le_refl|].
  eapply world_le_trans; [|exact IH]. by apply run_op_effect in Hrun as [? _].
Qed.

End Preservation.

(** ** Claims about the captured stack and its frames *)

(** C6: an object made by an operation of the package holds, from then on
    and whatever is run afterwards, at most as many captured addresses as
    [MaxStackDepth] was when the operation ran, and [StackFrames] returns
    for it, with at most that many frames. *)
Theorem stack_depth_bound (FuncForPC : Z → option Func)
    (pcCallers pcNewStackableError pcWrap pcWrapPrefix : Z)
    (w w1 w2 : world) (o : op) (ops : list op) (a : nat) :
  run_op FuncForPC pcCallers pcNewStackableError pcWrap pcWrapPrefix o w = Ok (tt, w1) →
  heap w !! a = None → is_Some (heap w1 !! a) →
  steps FuncForPC pcCallers pcNewStackableError pcWrap pcWrapPrefix w1 ops w2 →
  ∃ (pcs : list Z) (fs : list StackFrame) (w3 : world),
    Callers (Ref a) w2 = Ok (pcs, w2)
    ∧ (Z.of_nat (length pcs) ≤ MaxStackDepth w)%Z
    ∧ StackFrames FuncForPC (Ref a) w2 = Ok (fs, w3)
    ∧ (Z.of_nat (length fs) ≤ MaxStackDepth w)%Z.
Proof.
  intros Hrun Hnone [o1 Ho1] Hsteps.
  apply run_op_effect in Hrun as [_ Hnew].
  destruct (Hnew a o1 Hnone Ho1) as [Hbound Hcache].
  apply steps_world_le in Hsteps.
  destruct (Hsteps a o1 Ho1) as (o2 & Ho2 & _ & Hstack & _ & Hlen).
  destruct (StackFrames_Ok FuncForPC a o2 w2 Ho2)
    as (fs & w3 & Hframes & _ & _ & _ & Hcached & Hfresh).
  exists (stack o2), fs, w3. split_and!.
  - unfold Callers. by rewrite (bind_Ok _ _ w2 w2 o2) by by apply load_Ok.
  - by rewrite Hstack.
  - done.
  - destruct (frames o2) as [fs0|] eqn:E.
    + destruct (Hcached fs0 eq_refl) as [-> _]. rewrite (Hlen Hcache fs0 eq_refl). done.
    + destruct (Hfresh eq_refl) as [_ Hall%Forall2_length]. rewrite <- Hall, Hstack. done.
Qed.

Lemma stack_depth_bound_witness :
  ∃ (pcs : list Z) (fs : list StackFrame) (w3 : world),
    Callers (Ref 1)
      (mkWorld [mkStackableError (ErrForeign 7 "boom") ["a"] [100%Z; 0%Z; 200%Z] None;
                mkStackableError (ErrForeign 8 "bang") [] [300%Z; 200%Z] None]
         0 5 [] [])
    = Ok (pcs,
          mkWorld [mkStackableError (ErrForeign 7 "boom") ["a"] [100%Z; 0%Z; 200%Z] None;
                   mkStackableError (ErrForeign 8 "bang") [] [300%Z; 200%Z] None]
            0 5 [] [])
    ∧ (Z.of_nat (length pcs) ≤ 2)%Z
    ∧ StackFrames sample_FuncForPC (Ref 1)
        (mkWorld [mkStackableError (ErrForeign 7 "boom") ["a"] [100%Z; 0%Z; 200%Z] None;
                  mkStackableError (ErrForeign 8 "bang") [] [300%Z; 200%Z] None]
           0 5 [] [])
      = Ok (fs, w3)
    ∧ (Z.of_nat (length fs) ≤ 2)%Z.
Proof.
  eapply (stack_depth_bound sample_FuncForPC 1 2 3 4
            (mkWorld (heap sample_world) 0 2 [] []) _ _
           (OpWrap (VErr (ErrForeign 8 "bang")) [300%Z; 200%Z; 100%Z])
           [OpSetMaxStackDepth 5] 1).
  - reflexivity.
  - reflexivity.
  - by eexists.
  - econstructor; [reflexivity|]. constructor.
Defined.

(** C7: the first call of [StackFrames] on an object fills its frames
    cache, resolving every captured address once, in order; from then on,
    whatever is run in between, a call returns the very same frames and
    leaves the whole state, the trace of resolutions included, as it is. *)
Theorem StackFrames_memoized (FuncForPC : Z → option Func)
    (pcCallers pcNewStackableError pcWrap pcWrapPrefix : Z)
    (a : nat) (o : StackableError) (w : world) :
  heap w !! a = Some o →
  ∃ (fs : list StackFrame) (w1 : world),
    StackFrames FuncForPC (Ref a) w = Ok (fs, w1)
    ∧ (∃ o1, heap w1 !! a = Some o1 ∧ frames o1 = Some fs)
    ∧ (frames o = None →
         resolutions w1 = resolutions w ++ stack o
         ∧ Forall2 (resolves FuncForPC) (stack o) fs)
    ∧ (∀ fs0, frames o = Some fs0 → fs = fs0 ∧ w1 = w)
    ∧ (∀ ops w2,
         steps FuncForPC pcCallers pcNewStackableError pcWrap pcWrapPrefix w1 ops w2 →
         StackFrames FuncForPC (Ref a) w2 = Ok (fs, w2)).
Proof.
  intros Ho.
  destruct (StackFrames_Ok FuncForPC a o w Ho)
    as (fs & w1 & Hrun & Hheap & _ & _ & Hcached & Hfresh).
  assert (heap w1 !! a
          = Some (mkStackableError (Err o) (Prefixes o) (stack o) (Some fs))) as Ho1.
  { rewrite Hheap. apply list_lookup_insert_eq. by eapply lookup_lt_Some. }
  exists fs, w1. split_and!; [done | by eexists | done | done |].
  intros ops w2 Hsteps%steps_world_le.
  destruct (Hsteps a _ Ho1) as (o2 & Ho2 & _ & _ & Hkeep & _).
  eapply StackFrames_cached; [exact Ho2|]. by apply Hkeep.
Qed.

Lemma StackFrames_memoized_witness :
  heap sample_world !! 0
  = Some (mkStackableError (ErrForeign 7 "boom") ["a"] [100%Z; 0%Z; 200%Z] None)
  ∧ ∃ (fs : list StackFrame) (w1 : world),
      StackFrames sample_FuncForPC (Ref 0) sample_world = Ok (fs, w1)
      ∧ (∃ o1, heap w1 !! 0 = Some o1 ∧ frames o1 = Some fs)
      ∧ (@None (list StackFrame) = None →
           resolutions w1 = resolutions sample_world ++ [100%Z; 0%Z; 200%Z]
           ∧ Forall2 (resolves sample_FuncForPC) [100%Z; 0%Z; 200%Z] fs)
      ∧ (∀ fs0, @None (list StackFrame) = Some fs0 → fs = fs0 ∧ w1 = sample_world)
      ∧ (∀ ops w2, steps sample_FuncForPC 1 2 3 4 w1 ops w2 →
           StackFrames sample_FuncForPC (Ref 0) w2 = Ok (fs, w2)).
Proof.
  split; [reflexivity|].
  exact (StackFrames_memoized sample_FuncForPC 1 2 3 4 0 _ sample_world eq_refl).
Defined.

(** * Further properties of the code *)

(** ** More on [packageAndName] *)

Section NameSplitting.
Import Strings StringFacts.

Lemma str_length_drop (n : nat) (s : string) :
  String.length (str_drop n s) = String.length s - n.
Proof.
  revert s. induction n as [|n IH]; intros [|c s]; simpl; done.
Qed.

Lemma str_take_ge (n : nat) (s : string) : String.length s ≤ n → str_take n s = s.
Proof.
  revert s. induction n as [|n IH]; intros [|c s]; simpl; try done; [lia|].
  intros H. rewrite IH; [done | lia].
Qed.

Lemma slice_Ok (s : string) (lo hi : Z) :
  (0 ≤ lo ≤ hi)%Z → (hi ≤ len s)%Z →
  slice s lo hi = Ok (str_take (Z.to_nat (hi - lo)) (str_drop (Z.to_nat lo) s)).
Proof.
  intros [H1 H2] H3. unfold slice.
  replace ((0 <=? lo)%Z && (lo <=? hi)%Z && (hi <=? len s)%Z) with true
    by (symmetry; rewrite !andb_true_iff, !Z.leb_le; lia).
  done.
Qed.

Lemma slice_to_end (s : string) (lo : Z) :
  (0 ≤ lo ≤ len s)%Z → slice s lo (len s) = Ok (str_drop (Z.to_nat lo) s).
Proof.
  intros H. rewrite slice_Ok by lia. f_equal. apply str_take_ge.
  rewrite str_length_drop. unfold len in *. lia.
Qed.

Lemma slice_from_start (s : string) (hi : Z) :
  (0 ≤ hi ≤ len s)%Z → slice s 0 hi = Ok (str_take (Z.to_nat hi) s).
Proof.
  intros H. rewrite slice_Ok by lia. change (Z.to_nat 0) with 0.
  by rewrite str_drop_0, Z.sub_0_r.
Qed.

Lemma LastIndex_cut (s sep : string) :
  (0 ≤ LastIndex s sep)%Z →
  s = str_take (Z.to_nat (LastIndex s sep)) s +:+ sep
        +:+ str_drop (Z.to_nat (LastIndex s sep) + String.length sep) s.
Proof.
  induction s as [|x s IH].
  - rewrite LastIndex_nil. destruct (HasPrefix "" sep) eqn:E; [|lia].
    apply HasPrefix_length in E. destruct sep; [done | simpl in E; lia].
  - rewrite LastIndex_cons. destruct (Z.leb_spec 0 (LastIndex s sep)) as [Hge|Hlt].
    + intros _.
      replace (Z.to_nat (LastIndex s sep + 1)) with (S (Z.to_nat (LastIndex s sep)))
        by lia.
      simpl. f_equal. by apply IH.
    + destruct (HasPrefix (String x s) sep) eqn:E; [|lia]. intros _.
      change (Z.to_nat 0) with 0. rewrite str_take_0. by apply HasPrefix_cut.
Qed.

Lemma LastIndex_tail_none (x : ascii) (s sep : string) :
  LastIndex (String x s) sep = (-1)%Z → LastIndex s sep = (-1)%Z.
Proof.
  rewrite LastIndex_cons. destruct (Z.leb_spec 0 (LastIndex s sep)); [lia|].
  intros _. destruct (LastIndex_range s sep); [done | lia].
Qed.

Lemma LastIndex_none_drop (k : nat) (s sep : string) :
  LastIndex s sep = (-1)%Z → LastIndex (str_drop k s) sep = (-1)%Z.
Proof.
  revert s. induction k as [|k IH]; intros s Hs; [by rewrite str_drop_0|].
  destruct s as [|x s]; [done|]. simpl. apply IH. by eapply LastIndex_tail_none.
Qed.

(** Behind the last instance of a byte there is no further one. *)
Lemma LastIndex_byte_after (c : ascii) (s : string) :
  (0 ≤ LastIndex s (String c ""))%Z →
  LastIndex (str_drop (Z.to_nat (LastIndex s (String c "")) + 1) s) (String c "")
  = (-1)%Z.
Proof.
  induction s as [|x s IH]; [done|].
  rewrite LastIndex_cons.
  destruct (Z.leb_spec 0 (LastIndex s (String c ""))) as [Hge|Hlt].
  - intros _.
    replace (Z.to_nat (LastIndex s (String c "") + 1) + 1)
      with (S (Z.to_nat (LastIndex s (String c "")) + 1)) by lia.
    simpl. by apply IH.
  - destruct (HasPrefix (String x s) (String c "")); [|lia]. intros _.
    change (Z.to_nat 0 + 1) with 1. simpl.
    destruct (LastIndex_range s (String c "")); [done | lia].
Qed.

(** The first step of [packageAndName]: the name is cut behind its last
    slash, if it has one. *)
Lemma cut_slash_shape (name : string) :
  ∃ pkg1 rest,
    (if (0 <=? LastIndex name "/")%Z
     then dir ← slice name 0 (LastIndex name "/");
          r ← slice name (LastIndex name "/" + 1) (len name);
          Ok ("" +:+ dir +:+ "/", r)
     else Ok ("", name)) = Ok (pkg1, rest)
    ∧ name = pkg1 +:+ rest
    ∧ LastIndex rest "/" = (-1)%Z
    ∧ (pkg1 = "" ∨ ∃ dir, pkg1 = dir +:+ "/").
Proof.
  destruct (Z.leb_spec 0 (LastIndex name "/")) as [Hge|Hlt].
  - destruct (LastIndex_range name "/") as [?|[_ Hhi]]; [lia|].
    change (len "/") with 1%Z in Hhi.
    rewrite slice_from_start by lia. cbn [mbind result_bind].
    rewrite slice_to_end by lia. cbn [mbind result_bind].
    eexists _, _. split; [done|]. split_and!.
    + simpl String.append at 1. rewrite str_app_assoc.
      replace (Z.to_nat (LastIndex name "/" + 1))
        with (Z.to_nat (LastIndex name "/") + String.length "/") by (simpl; lia).
      by apply LastIndex_cut.
    + replace (Z.to_nat (LastIndex name "/" + 1))
        with (Z.to_nat (LastIndex name "/") + 1) by lia.
      by apply LastIndex_byte_after.
    + right. eexists. done.
  - exists "", name. split_and!; [done..| |by left].
    destruct (LastIndex_range name "/"); [done | lia].
Qed.

(** The second step: the rest is cut at its first period, if it has one. *)
Lemma cut_period_shape (pkg1 rest : string) :
  ∃ pkg raw,
    (if (0 <=? Index rest ".")%Z
     then short ← slice rest 0 (Index rest ".");
          r ← slice rest (Index rest "." + 1) (len rest);
          Ok (pkg1 +:+ short, r)
     else Ok (pkg1, rest)) = Ok (pkg, raw)
    ∧ (pkg1 +:+ rest = pkg +:+ "." +:+ raw
       ∨ (pkg1 +:+ rest = pkg +:+ raw ∧ Index raw "." = (-1)%Z))
    ∧ ∃ k, raw = str_drop k rest.
Proof.
  destruct (Z.leb_spec 0 (Index rest ".")) as [Hge|Hlt].
  - destruct (Index_range rest ".") as [?|[_ Hhi]]; [lia|].
    change (len ".") with 1%Z in Hhi.
    rewrite slice_from_start by lia. cbn [mbind result_bind].
    rewrite slice_to_end by lia. cbn [mbind result_bind].
    eexists _, _. split; [done|]. split; [|by eexists].
    left. rewrite str_app_assoc. f_equal.
    replace (Z.to_nat (Index rest "." + 1))
      with (Z.to_nat (Index rest ".") + String.length ".") by (simpl; lia).
    by apply Index_cut.
  - exists pkg1, rest. split; [done|]. split; [|by exists 0; rewrite str_drop_0].
    right. split; [done|]. destruct (Index_range rest "."); [done | lia].
Qed.

(** What [packageAndName] returns, for every name. *)
Lemma packageAndName_shape (fn : option Func) :
  ∃ pkg raw,
    packageAndName fn = Ok (pkg, Replace raw "·" "." (-1))
    ∧ LastIndex raw "/" = (-1)%Z
    ∧ (Func_Name fn = pkg +:+ "." +:+ raw
       ∨ (Func_Name fn = pkg +:+ raw ∧ Index raw "." = (-1)%Z)).
Proof.
  unfold packageAndName.
  destruct (cut_slash_shape (Func_Name fn)) as (pkg1 & rest & -> & Hname & Hrest & _).
  cbn [mbind result_bind]. cbv beta iota.
  destruct (cut_period_shape pkg1 rest) as (pkg & raw & -> & Hcut & k & ->).
  cbn [mbind result_bind]. cbv beta iota.
  exists pkg, (str_drop k rest). split; [done|].
  split; [by apply LastIndex_none_drop|]. by rewrite Hname.
Qed.

Lemma Replace_head (s : string) :
  head_is_183 s = false → head_is_183 (Replace s "·" "." (-1)) = false.
Proof.
  destruct s as [|d s]; [done|]. intros H.
  destruct (HasPrefix (String d s) "·") eqn:E.
  - rewrite (HasPrefix_cut _ _ E), Replace_at_center_dot. done.
  - rewrite Replace_at_other by done. done.
Qed.

(** After the replacement no center dot is left. *)
Lemma Replace_leaves_none (s : string) : Index (Replace s "·" "." (-1)) "·" = (-1)%Z.
Proof.
  remember (String.length s) as k eqn:Hk. revert s Hk.
  induction k as [k IH] using lt_wf_ind. intros s ->.
  destruct s as [|c s]; [done|].
  destruct (HasPrefix (String c s) "·") eqn:E.
  - pose proof (HasPrefix_cut _ _ E) as Hcut. simpl String.length in Hcut.
    revert Hcut. generalize (str_drop 2 (String c s)). intros t Hcut.
    rewrite Hcut in IH |- *. clear Hcut E.
    rewrite Replace_at_center_dot. simpl String.append.
    rewrite Index_cons, HasPrefix_center_dot.
    change (Ascii.eqb "194" ".") with false. cbn [andb].
    rewrite (IH (String.length t)); [done | simpl; lia | done].
  - rewrite Replace_at_other by done.
    rewrite Index_cons, HasPrefix_center_dot.
    rewrite HasPrefix_center_dot in E.
    replace (Ascii.eqb "194" c && _) with false; last first.
    { symmetry. destruct (Ascii.eqb "194" c); [|done]. cbn [andb] in *.
      by apply (Replace_head s). }
    rewrite (IH (String.length s)); [done | simpl; lia | done].
Qed.

End NameSplitting.

(** X1: for every function of the symbol table, and for the nil one,
    [packageAndName] returns without panic, and the name can be put together
    again: the qualified name is the package, a period and the function name
    before the center dots were replaced, or, when there is no period behind
    the last slash, the package followed by that function name; the function
    name never has a slash. *)
Theorem packageAndName_reassembles (fn : option Func) :
  ∃ pkg name raw : string,
    packageAndName fn = Ok (pkg, name)
    ∧ name = Strings.Replace raw "·" "." (-1)
    ∧ Strings.LastIndex raw "/" = (-1)%Z
    ∧ (Func_Name fn = pkg +:+ "." +:+ raw
       ∨ (Func_Name fn = pkg +:+ raw ∧ Strings.Index raw "." = (-1)%Z)).
Proof.
  destruct (packageAndName_shape fn) as (pkg & raw & Hrun & Hslash & Hname).
  exists pkg, (Strings.Replace raw "·" "." (-1)), raw. by split_and!.
Qed.

(** X2: the function name [packageAndName] returns never contains a center
    dot. *)
Theorem function_name_without_center_dot (fn : option Func) :
  ∃ pkg name : string,
    packageAndName fn = Ok (pkg, name) ∧ Strings.Index name "·" = (-1)%Z.
Proof.
  destruct (packageAndName_shape fn) as (pkg & raw & Hrun & _).
  eexists _, _. split; [exact Hrun|]. apply Replace_leaves_none.
Qed.

(** ** More on [NewStackFrame] *)

(** X3: for an address that is zero, or that [runtime.FuncForPC] does not
    know, the line that the method [String] writes for the frame of
    [NewStackFrame] is [: : line 0]. *)
Theorem unresolved_frame_line (FuncForPC : Z → option Func) (caller : Z) (w : world) :
  caller = 0%Z ∨ FuncForPC caller = None →
  ∃ frame w',
    NewStackFrame FuncForPC caller w = Ok (frame, w')
    ∧ StackFrame_String frame = Ok ": : line 0".
Proof.
  intros Hun.
  destruct (NewStackFrame_Ok FuncForPC caller w)
    as (frame & lk & Hrun & _ & Hzero & Hnone & _).
  eexists _, _. split; [exact Hrun|].
  destruct Hun as [H0|Hn].
  - by destruct (Hzero H0) as [-> _].
  - by rewrite (Hnone Hn).
Qed.

Lemma unresolved_frame_line_witness :
  (300%Z = 0%Z ∨ sample_FuncForPC 300 = None)
  ∧ ∃ frame w',
      NewStackFrame sample_FuncForPC 300 sample_world = Ok (frame, w')
      ∧ StackFrame_String frame = Ok ": : line 0".
Proof.
  split; [by right|].
  apply unresolved_frame_line. by right.
Defined.

(** X4: for a nonzero address that [runtime.FuncForPC] knows,
    [NewStackFrame] asks [runtime.FuncForPC] three times, takes file and
    line from [FileLine] at the address minus one (which does not wrap
    around) and package and function name from [packageAndName]. *)
Theorem NewStackFrame_resolved (FuncForPC : Z → option Func) (caller : Z)
    (fn : Func) (w : world) :
  (0 < caller < 2 ^ 64)%Z → FuncForPC caller = Some fn →
  ∃ pkg name w',
    packageAndName (Some fn) = Ok (pkg, name)
    ∧ NewStackFrame FuncForPC caller w
      = Ok (mkStackFrame caller (FileLine fn (caller - 1)).1
              (FileLine fn (caller - 1)).2 name pkg, w')
    ∧ lookups w' = lookups w ++ [caller; caller; caller]
    ∧ resolutions w' = resolutions w ++ [caller]
    ∧ heap w' = heap w.
Proof.
  intros Hrange Hfn.
  unfold NewStackFrame, StackFrame_Func, mbind, M_bind, mret, M_ret,
    log_resolution, log_lookup, lift. simpl.
  destruct (decide (caller = 0%Z)); [lia|]. simpl. rewrite Hfn.
  destruct (packageAndName_total (Some fn)) as [[pkg name] Hpn]. rewrite Hpn. simpl.
  replace (uintptr_sub caller 1) with (caller - 1)%Z
    by (unfold uintptr_sub; rewrite Z.mod_small; lia).
  destruct (FileLine fn (caller - 1)) as [file line].
  eexists pkg, name, _. split_and!; [done..| |done|done].
  simpl. by rewrite <- !app_assoc.
Qed.

Lemma NewStackFrame_resolved_witness :
  ((0 < 100 < 2 ^ 64)%Z ∧ sample_FuncForPC 100 = Some sample_method)
  ∧ ∃ pkg name w',
      packageAndName (Some sample_method) = Ok (pkg, name)
      ∧ NewStackFrame sample_FuncForPC 100 sample_world
        = Ok (mkStackFrame 100 (FileLine sample_method (100 - 1)).1
                (FileLine sample_method (100 - 1)).2 name pkg, w')
      ∧ lookups w' = lookups sample_world ++ [100%Z; 100%Z; 100%Z]
      ∧ resolutions w' = resolutions sample_world ++ [100%Z]
      ∧ heap w' = heap sample_world.
Proof.
  split; [split; [lia | reflexivity]|].
  apply NewStackFrame_resolved; [lia | reflexivity].
Defined.

(** ** More on [Wrap] and [WrapPrefix] *)

Section MoreWrapping.
Variables pcCallers pcNewStackableError pcWrap pcWrapPrefix : Z.

#[local] Abbreviation Wrap_ := (Wrap pcCallers pcNewStackableError pcWrap).
#[local] Abbreviation WrapPrefix_ :=
  (WrapPrefix pcCallers pcNewStackableError pcWrap pcWrapPrefix).

(** [Wrap] of a value that is no error: the cause is a new error whose text
    is the [%v] rendering. *)
Lemma Wrap_other_Ok (text : string) (stk : list Z) (w : world) :
  (0 ≤ MaxStackDepth w)%Z →
  Wrap_ (VOther text) stk w
  = Ok (Ref (length (heap w)),
        mkWorld (heap w ++ [mkStackableError (ErrForeign (next_id w) text) []
                              (take (Z.to_nat (MaxStackDepth w)) stk) None])
          (S (next_id w)) (MaxStackDepth w) (lookups w) (resolutions w)).
Proof.
  intros Hd. unfold Wrap, mbind, M_bind, fmt_Errorf_v.
  rewrite newStackableError_run. simpl.
  destruct (Z.ltb_spec (MaxStackDepth w) 0); [lia|]. done.
Qed.

Lemma Wrap_nil_Ok (stk : list Z) (w : world) :
  (0 ≤ MaxStackDepth w)%Z →
  Wrap_ (VErr ErrNil) stk w
  = Ok (Ref (length (heap w)),
        mkWorld (heap w ++ [mkStackableError (ErrForeign (next_id w) "<nil>") []
                              (take (Z.to_nat (MaxStackDepth w)) stk) None])
          (S (next_id w)) (MaxStackDepth w) (lookups w) (resolutions w)).
Proof.
  intros Hd. unfold Wrap, mbind, M_bind, fmt_Errorf_v.
  rewrite newStackableError_run. simpl.
  destruct (Z.ltb_spec (MaxStackDepth w) 0); [lia|]. done.
Qed.

Lemma Wrap_negative_depth (e : value) (stk : list Z) (w : world) :
  (MaxStackDepth w < 0)%Z → (∀ q, e ≠ VErr (ErrStackable q)) →
  Wrap_ e stk w = Panic.
Proof.
  intros Hd Hns. unfold Wrap. destruct e as [[|id msg|q|ty msg]|text].
  - unfold mbind, M_bind, fmt_Errorf_v. rewrite newStackableError_run. simpl.
    by destruct (Z.ltb_spec (MaxStackDepth w) 0); [|lia].
  - rewrite newStackableError_run.
    by destruct (Z.ltb_spec (MaxStackDepth w) 0); [|lia].
  - by destruct (Hns q).
  - rewrite newStackableError_run.
    by destruct (Z.ltb_spec (MaxStackDepth w) 0); [|lia].
  - unfold mbind, M_bind, fmt_Errorf_v. rewrite newStackableError_run. simpl.
    by destruct (Z.ltb_spec (MaxStackDepth w) 0); [|lia].
Qed.

Lemma Callers_Ok (a : nat) (o : StackableError) (w : world) :
  heap w !! a = Some o → Callers (Ref a) w = Ok (stack o, w).
Proof.
  intros Ho. unfold Callers. by rewrite (bind_Ok _ _ w w o) by by apply load_Ok.
Qed.

End MoreWrapping.



(** X6: while [MaxStackDepth] is negative, [Wrap] and [WrapPrefix] of
    anything but a [*StackableError] panic, in [make]. *)
Theorem negative_depth_panics (pcCallers pcNewStackableError pcWrap pcWrapPrefix : Z)
    (e : value) (prefix : string) (stk : list Z) (w : world) :
  (MaxStackDepth w < 0)%Z → (∀ q, e ≠ VErr (ErrStackable q)) →
  Wrap pcCallers pcNewStackableError pcWrap e stk w = Panic
  ∧ WrapPrefix pcCallers pcNewStackableError pcWrap pcWrapPrefix e prefix stk w = Panic.
Proof.
  intros Hd Hns. split; [by apply Wrap_negative_depth|].
  unfold WrapPrefix, mbind, M_bind. by rewrite Wrap_negative_depth.
Qed.

Lemma negative_depth_panics_witness :
  ((MaxStackDepth (mkWorld [] 0 (-1) [] []) < 0)%Z
   ∧ ∀ q, VOther "oops" ≠ VErr (ErrStackable q))
  ∧ Wrap 1 2 3 (VOther "oops") [300%Z] (mkWorld [] 0 (-1) [] []) = Panic
  ∧ WrapPrefix 1 2 3 4 (VOther "oops") "ctx" [300%Z] (mkWorld [] 0 (-1) [] []) = Panic.
Proof.
  assert (∀ q, VOther "oops" ≠ VErr (ErrStackable q)) as H by done.
  split; [split; [simpl; lia | done]|].
  apply negative_depth_panics; [simpl; lia | done].
Defined.

(** X7: [Wrap] of a value that is no error, and of the nil interface,
    makes an object whose message is what [%v] prints for the value
    ([<nil>] for nil); the cause is a new error each time, so two wraps of
    the same such value are not equal for [Is]. *)
Theorem Wrap_of_non_error (pcCallers pcNewStackableError pcWrap : Z)
    (text : string) (stk1 stk2 : list Z) (w : world) :
  (0 ≤ MaxStackDepth w)%Z →
  ∃ p w1 q w2 r w3,
    Wrap pcCallers pcNewStackableError pcWrap (VOther text) stk1 w = Ok (p, w1)
    ∧ Wrap pcCallers pcNewStackableError pcWrap (VOther text) stk2 w1 = Ok (q, w2)
    ∧ Wrap pcCallers pcNewStackableError pcWrap (VErr ErrNil) stk1 w = Ok (r, w3)
    ∧ ∀ n, 3 ≤ n →
        Error n (heap w1) (ErrStackable p) = Ok text
        ∧ Error n (heap w3) (ErrStackable r) = Ok "<nil>"
        ∧ Is n (heap w2) (ErrStackable p) (ErrStackable q) = Ok false.
Proof.
  intros Hd. eexists _, _, _, _, _, _.
  split; [by apply Wrap_other_Ok|].
  split; [by apply Wrap_other_Ok|].
  split; [by apply Wrap_nil_Ok|].
  intros n Hn. destruct n as [|[|[|n]]]; try lia. simpl heap. split_and!.
  - rewrite Error_stackable, list_lookup_middle by done. done.
  - rewrite Error_stackable, list_lookup_middle by done. done.
  - rewrite Is_unfold. cbn [same_uncomparable]. destruct (decide _) as [[=]|_].
    { rewrite length_app in *. simpl in *. lia. }
    erewrite deref_Ok; last first.
    { apply lookup_app_l_Some. by apply list_lookup_middle. }
    cbn [mbind result_bind Err].
    rewrite Is_unfold. cbn [same_uncomparable]. destruct (decide _); [done|].
    rewrite (deref_Ok _ _ _ (list_lookup_middle _ [] _ _ eq_refl)).
    cbn [mbind result_bind Err].
    rewrite Is_unfold. cbn [same_uncomparable].
    destruct (decide _) as [[=]|_]; [lia|done].
Qed.

Lemma Wrap_of_non_error_witness :
  (0 ≤ MaxStackDepth sample_world)%Z
  ∧ ∃ p w1 q w2 r w3,
      Wrap 1 2 3 (VOther "42") [300%Z] sample_world = Ok (p, w1)
      ∧ Wrap 1 2 3 (VOther "42") [400%Z] w1 = Ok (q, w2)
      ∧ Wrap 1 2 3 (VErr ErrNil) [300%Z] sample_world = Ok (r, w3)
      ∧ ∀ n, 3 ≤ n →
          Error n (heap w1) (ErrStackable p) = Ok "42"
          ∧ Error n (heap w3) (ErrStackable r) = Ok "<nil>"
          ∧ Is n (heap w2) (ErrStackable p) (ErrStackable q) = Ok false.
Proof.
  split; [simpl; lia|].
  apply (Wrap_of_non_error 1 2 3 "42" [300%Z] [400%Z] sample_world). simpl; lia.
Defined.

(** X8: on a nil [*StackableError] every method panics, [WrapPrefix] panics
    (where [Wrap] returns the nil pointer), and [Is] panics unless the
    other error is the same nil pointer. *)
Theorem nil_pointer_panics (FuncForPC : Z → option Func)
    (pcCallers pcNewStackableError pcWrap pcWrapPrefix : Z)
    (n : nat) (prefix : string) (stk : list Z) (w : world) (e : error) :
  e ≠ ErrStackable Null →
  Error (S n) (heap w) (ErrStackable Null) = Panic
  ∧ Callers Null w = Panic
  ∧ StackFrames FuncForPC Null w = Panic
  ∧ Stack FuncForPC Null w = Panic
  ∧ StackTrace FuncForPC (S n) Null w = Panic
  ∧ WrapPrefix pcCallers pcNewStackableError pcWrap pcWrapPrefix
      (VErr (ErrStackable Null)) prefix stk w = Panic
  ∧ Is (S n) (heap w) (ErrStackable Null) e = Panic.
Proof.
  intros He. split_and!; try done.
  rewrite Is_unfold. cbn [same_uncomparable].
  destruct (decide _) as [Heq|_]; [by destruct He|]. done.
Qed.

Lemma nil_pointer_panics_witness :
  ErrForeign 7 "boom" ≠ ErrStackable Null
  ∧ Error 1 (heap sample_world) (ErrStackable Null) = Panic
  ∧ Callers Null sample_world = Panic
  ∧ StackFrames sample_FuncForPC Null sample_world = Panic
  ∧ Stack sample_FuncForPC Null sample_world = Panic
  ∧ StackTrace sample_FuncForPC 1 Null sample_world = Panic
  ∧ WrapPrefix 1 2 3 4 (VErr (ErrStackable Null)) "ctx" [300%Z] sample_world = Panic
  ∧ Is 1 (heap sample_world) (ErrStackable Null) (ErrForeign 7 "boom") = Panic.
Proof.
  assert (ErrForeign 7 "boom" ≠ ErrStackable Null) as H by done.
  split; [done|].
  exact (nil_pointer_panics sample_FuncForPC 1 2 3 4 0 "ctx" [300%Z] sample_world _ H).
Defined.

(** ** More on [Is] *)

Section Roots.
Variable h : list StackableError.

(** When both chains end in errors of one type that is not comparable,
    [Is] answers [true] if it meets the second error on the chain of the
    first before it reaches the end, and panics otherwise. *)
Lemma Is_root_panics (n : nat) (e original : error) (le lo : list error) (r ro : error) :
  chain h e le → chain h original lo →
  last le = Some r → last lo = Some ro → same_uncomparable r ro = true →
  length le + length lo ≤ n →
  Is n h e original
  = if bool_decide (original ∈ le ∧ original ≠ r) then Ok true else Panic.
Proof.
  intros He. revert n original lo.
  induction He as [e Hroot|a o l Ho Hl IH]; intros n original lo Horig Hr Hro Hsu Hn.
  - injection Hr as <-.
    rewrite bool_decide_eq_false_2; last first.
    { intros [->%list_elem_of_singleton ?]. done. }
    revert n Hn. induction Horig as [e' Hroot'|b ob l' Hob Hl' IH']; intros n Hn.
    + injection Hro as <-.
      destruct n as [|n]; [simpl in Hn; lia|]. by rewrite Is_unfold, Hsu.
    + destruct n as [|n]; [simpl in Hn; lia|].
      rewrite Is_unfold, same_uncomparable_stackable_r.
      destruct (decide _) as [->|_]; [by destruct (Hroot (Ref b))|].
      destruct (chain_nonempty _ _ _ Hl') as [l'' ->]. rewrite last_cons_cons in Hro.
      destruct e as [| |p|]; [..|by destruct (Hroot p)|];
        rewrite (deref_Ok _ _ _ Hob); cbn [mbind result_bind];
        apply IH'; simpl in *; (done || lia).
  - destruct n as [|n]; [simpl in Hn; lia|]. rewrite Is_unfold. cbn [same_uncomparable].
    destruct (chain_nonempty _ _ _ Hl) as [l' ->]. rewrite last_cons_cons in Hr.
    assert (r ≠ ErrStackable (Ref a)) as Hra.
    { intros ->. done. }
    destruct (decide _) as [<-|Hne].
    + rewrite bool_decide_eq_true_2; [done|]. split; [apply list_elem_of_here | done].
    + rewrite (deref_Ok _ _ _ Ho). cbn [mbind result_bind].
      erewrite IH; [|done..|simpl in *; lia].
      apply (f_equal (λ b : bool, if b then Ok true else Panic)).
      apply bool_decide_ext. rewrite !elem_of_cons.
      split; [intros [Hin Hr']|intros [[Heq|Hin] Hr']]; [by split; [right|]|done..].
Qed.

(** On an object that is its own cause the recursion never ends. *)
Lemma Error_self_cause (a : nat) (o : StackableError) (n : nat) :
  h !! a = Some o → Err o = ErrStackable (Ref a) →
  Error n h (ErrStackable (Ref a)) = OutOfFuel.
Proof.
  intros Ho Hself. induction n as [|n IH]; [done|].
  by rewrite Error_stackable, Ho, Hself, IH.
Qed.

Lemma Is_self_cause (a : nat) (o : StackableError) (original : error) (n : nat) :
  h !! a = Some o → Err o = ErrStackable (Ref a) → original ≠ ErrStackable (Ref a) →
  Is n h (ErrStackable (Ref a)) original = OutOfFuel.
Proof.
  intros Ho Hself Hne. induction n as [|n IH]; [done|].
  rewrite Is_unfold. cbn [same_uncomparable].
  destruct (decide _) as [Heq|_]; [by destruct Hne|].
  rewrite (deref_Ok _ _ _ Ho). cbn [mbind result_bind]. by rewrite Hself.
Qed.

End Roots.







(** X12: on a [StackableError] that is its own cause, [Error] never
    returns, and neither does [Is] against any other error: with whatever
    fuel, the recursion runs out of it. *)
Theorem self_cause_never_returns (h : list StackableError) (a : nat)
    (o : StackableError) (original : error) (n : nat) :
  h !! a = Some o → Err o = ErrStackable (Ref a) → original ≠ ErrStackable (Ref a) →
  Error n h (ErrStackable (Ref a)) = OutOfFuel
  ∧ Is n h (ErrStackable (Ref a)) original = OutOfFuel
  ∧ Is n h original (ErrStackable (Ref a)) ≠ Ok false.
Proof.
  intros Ho Hself Hne. split; [by eapply Error_self_cause|].
  split; [by eapply Is_self_cause|].
  revert original Hne. induction n as [|n IH]; intros original Hne; [done|].
  rewrite Is_unfold, same_uncomparable_stackable_r. destruct (decide _); [done|].
  destruct original as [| |p|].
  - rewrite (deref_Ok _ _ _ Ho). cbn [mbind result_bind]. rewrite Hself. by apply IH.
  - rewrite (deref_Ok _ _ _ Ho). cbn [mbind result_bind]. rewrite Hself. by apply IH.
  - destruct (deref h p) as [op| |] eqn:E; [|done..]. cbn [mbind result_bind].
    destruct (decide (Err op = ErrStackable (Ref a))) as [->|Hne'].
    + destruct n as [|n]; [done|]. rewrite Is_unfold. cbn [same_uncomparable].
      by destruct (decide _).
    + by apply IH.
  - rewrite (deref_Ok _ _ _ Ho). cbn [mbind result_bind]. rewrite Hself. by apply IH.
Qed.

Lemma self_cause_never_returns_witness :
  ([mkStackableError (ErrStackable (Ref 0)) [] [] None] !! 0
   = Some (mkStackableError (ErrStackable (Ref 0)) [] [] None)
   ∧ ErrForeign 7 "boom" ≠ ErrStackable (Ref 0))
  ∧ Error 10 [mkStackableError (ErrStackable (Ref 0)) [] [] None] (ErrStackable (Ref 0))
    = OutOfFuel
  ∧ Is 10 [mkStackableError (ErrStackable (Ref 0)) [] [] None]
      (ErrStackable (Ref 0)) (ErrForeign 7 "boom") = OutOfFuel
  ∧ Is 10 [mkStackableError (ErrStackable (Ref 0)) [] [] None]
      (ErrForeign 7 "boom") (ErrStackable (Ref 0)) ≠ Ok false.
Proof.
  assert (ErrForeign 7 "boom" ≠ ErrStackable (Ref 0)) as H by done.
  split; [done|].
  exact (self_cause_never_returns
           [mkStackableError (ErrStackable (Ref 0)) [] [] None] 0
           (mkStackableError (ErrStackable (Ref 0)) [] [] None)
           (ErrForeign 7 "boom") 10 eq_refl eq_refl H).
Defined.

(** ** More on the frames and the text of the stack *)

(** [Error] and [Is] read the causes and the prefixes only. *)
Lemma Error_ext (h h' : list StackableError) (n : nat) (e : error) :
  (∀ a, (λ o, (Err o, Prefixes o)) <$> h !! a = (λ o, (Err o, Prefixes o)) <$> h' !! a) →
  Error n h e = Error n h' e.
Proof.
  intros Hext. revert e. induction n as [|n IH]; intros e; [done|].
  destruct e as [|id msg|[|a]|ty msg]; try done.
  rewrite !Error_stackable. specialize (Hext a).
  destruct (h !! a) as [o|], (h' !! a) as [o'|]; simplify_eq/=; [|done].
  by rewrite IH, H, H0.
Qed.

Lemma Is_ext (h h' : list StackableError) (n : nat) (e original : error) :
  (∀ a, Err <$> h !! a = Err <$> h' !! a) →
  Is n h e original = Is n h' e original.
Proof.
  intros Hext.
  assert (∀ p (k : StackableError → result bool),
            (∀ o o', Err o = Err o' → k o = k o') →
            (deref h p ≫= k) = (deref h' p ≫= k)) as Hderef.
  { intros [|a] k Hk; [done|]. unfold deref. specialize (Hext a).
    destruct (h !! a) as [o|], (h' !! a) as [o'|]; simplify_eq/=; [|done].
    by apply Hk. }
  revert e original. induction n as [|n IH]; intros e original; [done|].
  rewrite !Is_unfold. destruct (same_uncomparable e original); [done|].
  destruct (decide _); [done|].
  destruct e as [|id msg|p|ty msg].
  - destruct original as [| |q|]; try done.
    rewrite (Hderef q (λ o, Is n h ErrNil (Err o))) by (by intros o o' ->).
    destruct (deref h' q); simpl; [apply IH|done..].
  - destruct original as [| |q|]; try done.
    rewrite (Hderef q (λ o, Is n h (ErrForeign id msg) (Err o))) by (by intros o o' ->).
    destruct (deref h' q); simpl; [apply IH|done..].
  - rewrite (Hderef p (λ o, Is n h (Err o) original)) by (by intros o o' ->).
    destruct (deref h' p); simpl; [apply IH|done..].
  - destruct original as [| |q|]; try done.
    rewrite (Hderef q (λ o, Is n h (ErrUncomparable ty msg) (Err o)))
      by (by intros o o' ->).
    destruct (deref h' q); simpl; [apply IH|done..].
Qed.

Lemma lookup_insert_same_fields (h : list StackableError) (a b : nat)
    (o : StackableError) (fr : option (list StackFrame)) :
  h !! a = Some o →
  (λ o, (Err o, Prefixes o)) <$> h !! b
  = (λ o, (Err o, Prefixes o))
      <$> <[a := mkStackableError (Err o) (Prefixes o) (stack o) fr]> h !! b.
Proof.
  intros Ho. destruct (decide (b = a)) as [->|Hne].
  - rewrite list_lookup_insert_eq by by eapply lookup_lt_Some. by rewrite Ho.
  - by rewrite list_lookup_insert_ne.
Qed.

Section MoreFrames.
Variable FuncForPC : Z → option Func.

Lemma resolves_Caller (pc : Z) (frame : StackFrame) :
  resolves FuncForPC pc frame → Caller frame = pc.
Proof.
  intros (w & w' & Hrun).
  destruct (NewStackFrame_Ok FuncForPC pc w) as (f & lk & Hrun' & Hc & _).
  congruence.
Qed.

Lemma resolves_Callers (pcs : list Z) (fs : list StackFrame) :
  Forall2 (resolves FuncForPC) pcs fs → Caller <$> fs = pcs.
Proof.
  induction 1 as [|pc f pcs fs Hf _ IH]; [done|].
  rewrite fmap_cons, IH. f_equal. by apply resolves_Caller.
Qed.

(** What [StackFrames] does to the state, whatever the pointer. *)
Lemma StackFrames_inv (err : ptr) (w w' : world) (fs : list StackFrame) :
  StackFrames FuncForPC err w = Ok (fs, w') →
  ∃ a o, err = Ref a ∧ heap w !! a = Some o
         ∧ heap w' = <[a := mkStackableError (Err o) (Prefixes o) (stack o) (Some fs)]>
                       (heap w)
         ∧ next_id w' = next_id w ∧ MaxStackDepth w' = MaxStackDepth w.
Proof.
  intros Hrun. pose proof Hrun as Hrun'. unfold StackFrames in Hrun'.
  apply bind_Ok_inv in Hrun' as (o & w1 & Hload & _).
  apply load_Ok_inv in Hload as (-> & a & -> & Ho).
  destruct (StackFrames_Ok FuncForPC a o w Ho)
    as (fs1 & w1 & Hrun1 & Hheap & Hid & Hd & _).
  rewrite Hrun in Hrun1. injection Hrun1 as <- <-.
  exists a, o. by split_and!.
Qed.

Lemma Stack_inv (err : ptr) (w w' : world) (s : string) :
  Stack FuncForPC err w = Ok (s, w') →
  ∃ fs, StackFrames FuncForPC err w = Ok (fs, w') ∧ stack_loop "" fs = Ok s.
Proof.
  unfold Stack. intros (fs & w1 & Hrun & Hlift)%bind_Ok_inv.
  apply lift_Ok_inv in Hlift as [-> Hloop]. eauto.
Qed.

Lemma StackTrace_inv (fuel : nat) (err : ptr) (w w' : world) (s : string) :
  StackTrace FuncForPC fuel err w = Ok (s, w') →
  ∃ msg st,
    Error fuel (heap w) (ErrStackable err) = Ok msg
    ∧ Stack FuncForPC err w = Ok (st, w')
    ∧ s = "ERROR: " +:+ msg +:+ LF +:+ st.
Proof.
  unfold StackTrace. intros (w0 & w1 & [= <- <-] & Hrest)%bind_Ok_inv.
  apply bind_Ok_inv in Hrest as (msg & w1 & Hlift & Hrest).
  apply lift_Ok_inv in Hlift as [-> Hmsg].
  apply bind_Ok_inv in Hrest as (st & w2 & Hstack & [= <- <-]).
  eauto.
Qed.

Lemma StackTrace_run (fuel : nat) (err : ptr) (w w' : world) (msg st : string) :
  Error fuel (heap w) (ErrStackable err) = Ok msg →
  Stack FuncForPC err w = Ok (st, w') →
  StackTrace FuncForPC fuel err w = Ok ("ERROR: " +:+ msg +:+ LF +:+ st, w').
Proof.
  intros Hmsg Hstack. unfold StackTrace. rewrite (bind_Ok _ _ w w w) by done.
  rewrite (bind_Ok _ _ w w msg) by (unfold lift; by rewrite Hmsg).
  by erewrite bind_Ok by exact Hstack.
Qed.

Lemma Stack_run (err : ptr) (w w' : world) (fs : list StackFrame) (s : string) :
  StackFrames FuncForPC err w = Ok (fs, w') → stack_loop "" fs = Ok s →
  Stack FuncForPC err w = Ok (s, w').
Proof.
  intros Hrun Hloop. unfold Stack. erewrite bind_Ok by exact Hrun.
  unfold lift. by rewrite Hloop.
Qed.

End MoreFrames.

(** X13: the first call of [StackFrames] on an object returns one frame for
    each captured address, in the order of [Callers], each frame carrying
    its address in [Caller]. *)
Theorem frames_follow_callers (FuncForPC : Z → option Func) (a : nat)
    (o : StackableError) (w : world) :
  heap w !! a = Some o → frames o = None →
  ∃ fs w',
    StackFrames FuncForPC (Ref a) w = Ok (fs, w')
    ∧ Callers (Ref a) w' = Ok (Caller <$> fs, w')
    ∧ Callers (Ref a) w = Ok (Caller <$> fs, w).
Proof.
  intros Ho Hnone.
  destruct (StackFrames_Ok FuncForPC a o w Ho)
    as (fs & w' & Hrun & Hheap & _ & _ & _ & Hfresh).
  destruct (Hfresh Hnone) as [_ Hres%resolves_Callers].
  exists fs, w'. split; [done|]. rewrite Hres. split.
  - erewrite Callers_Ok; last first.
    { rewrite Hheap. apply list_lookup_insert_eq. by eapply lookup_lt_Some. }
    done.
  - by erewrite Callers_Ok.
Qed.

Lemma frames_follow_callers_witness :
  (heap sample_world !! 0
   = Some (mkStackableError (ErrForeign 7 "boom") ["a"] [100%Z; 0%Z; 200%Z] None)
   ∧ @None (list StackFrame) = None)
  ∧ ∃ fs w',
      StackFrames sample_FuncForPC (Ref 0) sample_world = Ok (fs, w')
      ∧ Callers (Ref 0) w' = Ok (Caller <$> fs, w')
      ∧ Callers (Ref 0) sample_world = Ok (Caller <$> fs, sample_world).
Proof.
  split; [done|].
  exact (frames_follow_callers sample_FuncForPC 0 _ sample_world eq_refl eq_refl).
Defined.



(** X15: [StackFrames] and [Stack] return for every pointer to an object,
    whatever the symbol table and the captured addresses: no address makes
    the resolution or the rendering panic; and [StackTrace] returns whenever
    [Error] does. *)
Theorem Stack_returns (FuncForPC : Z → option Func) (a : nat) (o : StackableError)
    (w : world) :
  heap w !! a = Some o →
  ∃ fs s w',
    StackFrames FuncForPC (Ref a) w = Ok (fs, w')
    ∧ Stack FuncForPC (Ref a) w = Ok (s, w')
    ∧ (∀ n msg, Error n (heap w) (ErrStackable (Ref a)) = Ok msg →
         StackTrace FuncForPC n (Ref a) w = Ok ("ERROR: " +:+ msg +:+ LF +:+ s, w')).
Proof.
  intros Ho.
  destruct (StackFrames_Ok FuncForPC a o w Ho) as (fs & w' & Hrun & _).
  destruct (renders_all fs) as [lines Hlines].
  exists fs, (str_concat ((λ line, line +:+ LF) <$> lines)), w'.
  assert (Stack FuncForPC (Ref a) w
          = Ok (str_concat ((λ line, line +:+ LF) <$> lines), w')) as Hstack
    by (by eapply Stack_Ok).
  split_and!; [done..|]. intros n msg Hmsg. by apply StackTrace_run.
Qed.

Lemma Stack_returns_witness :
  heap sample_world !! 0
  = Some (mkStackableError (ErrForeign 7 "boom") ["a"] [100%Z; 0%Z; 200%Z] None)
  ∧ ∃ fs s w',
      StackFrames sample_FuncForPC (Ref 0) sample_world = Ok (fs, w')
      ∧ Stack sample_FuncForPC (Ref 0) sample_world = Ok (s, w')
      ∧ (∀ n msg, Error n (heap sample_world) (ErrStackable (Ref 0)) = Ok msg →
           StackTrace sample_FuncForPC n (Ref 0) sample_world
           = Ok ("ERROR: " +:+ msg +:+ LF +:+ s, w')).
Proof.
  split; [reflexivity|].
  exact (Stack_returns sample_FuncForPC 0 _ sample_world eq_refl).
Defined.

(** X16: a second [StackTrace] returns the same text as the first and
    changes nothing, and so does a second [Stack]. *)
Theorem StackTrace_repeatable (FuncForPC : Z → option Func) (fuel : nat) (err : ptr)
    (w w1 : world) (s : string) :
  StackTrace FuncForPC fuel err w = Ok (s, w1) →
  StackTrace FuncForPC fuel err w1 = Ok (s, w1)
  ∧ ∃ st, Stack FuncForPC err w = Ok (st, w1) ∧ Stack FuncForPC err w1 = Ok (st, w1).
Proof.
  intros (msg & st & Hmsg & Hstack & ->)%StackTrace_inv.
  destruct (Stack_inv _ _ _ _ _ Hstack) as (fs & Hrun & Hloop).
  destruct (StackFrames_inv _ _ _ _ _ Hrun) as (a & o & -> & Ho & Hheap & _).
  assert (StackFrames FuncForPC (Ref a) w1 = Ok (fs, w1)) as Hrun1.
  { eapply (StackFrames_cached FuncForPC a
              (mkStackableError (Err o) (Prefixes o) (stack o) (Some fs))); [|done].
    rewrite Hheap. apply list_lookup_insert_eq. by eapply lookup_lt_Some. }
  assert (Stack FuncForPC (Ref a) w1 = Ok (st, w1)) as Hstack1
    by (by eapply Stack_run).
  split; [|by exists st].
  apply StackTrace_run; [|done].
  rewrite Hheap, <- Hmsg. symmetry. apply Error_ext.
  intros b. by apply lookup_insert_same_fields.
Qed.

Lemma StackTrace_repeatable_witness :
  ∃ s w1,
    StackTrace sample_FuncForPC 2 (Ref 0) sample_world = Ok (s, w1)
    ∧ StackTrace sample_FuncForPC 2 (Ref 0) w1 = Ok (s, w1)
    ∧ ∃ st, Stack sample_FuncForPC (Ref 0) sample_world = Ok (st, w1)
            ∧ Stack sample_FuncForPC (Ref 0) w1 = Ok (st, w1).
Proof.
  eexists _, _. split; [vm_compute; reflexivity|].
  apply (StackTrace_repeatable sample_FuncForPC 2 (Ref 0) sample_world).
  vm_compute; reflexivity.
Defined.

(** X17: resolving the frames changes no message and no answer of [Is]:
    after [StackFrames], [Error] and [Is] return what they returned
    before, for every error. *)
Theorem resolving_keeps_messages (FuncForPC : Z → option Func) (err : ptr)
    (w w' : world) (fs : list StackFrame) :
  StackFrames FuncForPC err w = Ok (fs, w') →
  ∀ (n : nat) (e original : error),
    Error n (heap w') e = Error n (heap w) e
    ∧ Is n (heap w') e original = Is n (heap w) e original.
Proof.
  intros (a & o & -> & Ho & Hheap & _)%StackFrames_inv n e original.
  rewrite Hheap. split; symmetry.
  - apply Error_ext. intros b. by apply lookup_insert_same_fields.
  - apply Is_ext. intros b.
    pose proof (lookup_insert_same_fields (heap w) a b o (Some fs) Ho) as H.
    destruct (heap w !! b), (<[a:=_]> (heap w) !! b); simplify_eq/=; congruence.
Qed.

Lemma resolving_keeps_messages_witness :
  ∃ fs w',
    StackFrames sample_FuncForPC (Ref 0) sample_world = Ok (fs, w')
    ∧ ∀ (n : nat) (e original : error),
        Error n (heap w') e = Error n (heap sample_world) e
        ∧ Is n (heap w') e original = Is n (heap sample_world) e original.
Proof.
  eexists _, _. split; [vm_compute; reflexivity|].
  eapply (resolving_keeps_messages sample_FuncForPC (Ref 0) sample_world).
  vm_compute; reflexivity.
Defined.

(** ** What every run of the package keeps *)

Lemma prefixes_le_refl (w : world) : prefixes_le w w.
Proof. intros a o Ho. by exists o. Qed.

Lemma prefixes_le_trans (w1 w2 w3 : world) :
  prefixes_le w1 w2 → prefixes_le w2 w3 → prefixes_le w1 w3.
Proof.
  intros H12 H23 a o1 Ho1.
  destruct (H12 a o1 Ho1) as (o2 & Ho2 & Hp12).
  destruct (H23 a o2 Ho2) as (o3 & Ho3 & Hp23).
  exists o3. split; [done|]. by etrans.
Qed.

Lemma prefixes_le_insert (w w' : world) (a : nat) (o o' : StackableError) :
  heap w !! a = Some o → Prefixes o `prefix_of` Prefixes o' →
  heap w' = <[a := o']> (heap w) → prefixes_le w w'.
Proof.
  intros Ho Hle Hheap b ob Hob. rewrite Hheap.
  destruct (decide (b = a)) as [->|Hne].
  - exists o'. split; [|congruence].
    apply list_lookup_insert_eq. by eapply lookup_lt_Some.
  - exists ob. split; [|done]. by rewrite list_lookup_insert_ne.
Qed.

Section Invariants.
Variable FuncForPC : Z → option Func.
Variables pcCallers pcNewStackableError pcWrap pcWrapPrefix : Z.

#[local] Abbreviation run_op_ :=
  (run_op FuncForPC pcCallers pcNewStackableError pcWrap pcWrapPrefix).
#[local] Abbreviation steps_ :=
  (steps FuncForPC pcCallers pcNewStackableError pcWrap pcWrapPrefix).

Lemma Wrap_prefixes_le (e : value) (stk : list Z) (w w' : world) (p : ptr) :
  Wrap pcCallers pcNewStackableError pcWrap e stk w = Ok (p, w') →
  prefixes_le w w'
  ∧ (∀ a o, heap w !! a = None → heap w' !! a = Some o →
       ∃ msg, foreign_message (Err o) = Some msg).
Proof.
  intros [[-> ->]|(Hd & _ & cause & msg & n & Hcause & -> & ->)]%Wrap_inv.
  - split; [apply prefixes_le_refl|]. intros a o Hnone Hsome. congruence.
  - simpl. split.
    + intros a o Ho. exists o. split; [|done]. simpl. by apply lookup_app_l_Some.
    + intros a o Hnone%lookup_ge_None Hsome.
      rewrite lookup_app_r in Hsome by done.
      apply list_lookup_singleton_Some in Hsome as [_ <-]. simpl. eauto.
Qed.

Lemma WrapPrefix_prefixes_le (e : value) (prefix : string) (stk : list Z)
    (w w' : world) (p : ptr) :
  WrapPrefix pcCallers pcNewStackableError pcWrap pcWrapPrefix e prefix stk w = Ok (p, w') →
  prefixes_le w w'
  ∧ (∀ a o, heap w !! a = None → heap w' !! a = Some o →
       ∃ msg, foreign_message (Err o) = Some msg).
Proof.
  unfold WrapPrefix.
  intros (q & w1 & Hwrap & Hrest)%bind_Ok_inv.
  apply bind_Ok_inv in Hrest as (o & w1' & Hload & Hrest).
  apply load_Ok_inv in Hload as (-> & a & -> & Ho).
  apply bind_Ok_inv in Hrest as ([] & w2 & Hstore & [= <- <-]).
  rewrite (store_Ok a o) in Hstore by done. injection Hstore as <-.
  destruct (Wrap_prefixes_le _ _ _ _ _ Hwrap) as (Hle & Hnew).
  split.
  - eapply prefixes_le_trans; [exact Hle|].
    eapply (prefixes_le_insert w1 _ a o); [done| |done].
    simpl. by apply prefix_app_r.
  - simpl. intros b ob Hnone Hsome.
    destruct (decide (b = a)) as [->|Hne].
    + rewrite list_lookup_insert_eq in Hsome by by eapply lookup_lt_Some.
      injection Hsome as <-. simpl. by eapply Hnew.
    + rewrite list_lookup_insert_ne in Hsome by done. by eapply Hnew.
Qed.

Lemma StackFrames_prefixes_le (err : ptr) (w w' : world) (fs : list StackFrame) :
  StackFrames FuncForPC err w = Ok (fs, w') → prefixes_le w w'.
Proof.
  intros (a & o & -> & Ho & Hheap & _)%StackFrames_inv.
  eapply (prefixes_le_insert w w' a o); [done| |exact Hheap]. done.
Qed.

(** Every operation keeps the prefixes, and the cause of an object it makes
    is an error that is no [*StackableError] and not nil. *)
Lemma run_op_prefixes_le (o : op) (w w' : world) :
  run_op_ o w = Ok (tt, w') →
  prefixes_le w w'
  ∧ (∀ a ob, heap w !! a = None → heap w' !! a = Some ob →
       ∃ msg, foreign_message (Err ob) = Some msg).
Proof.
  assert (∀ w1 w2 : world, length (heap w2) = length (heap w1) →
            ∀ a ob, heap w1 !! a = None → heap w2 !! a = Some ob →
              ∃ msg, foreign_message (Err ob) = Some msg) as Hsame.
  { intros w1 w2 Hlen a ob Hnone%lookup_ge_None Hsome%lookup_lt_Some. lia. }
  destruct o as [e stk|e prefix stk|err|err|fuel err|d]; simpl.
  - intros (p & w1 & Hrun & [= <-])%bind_Ok_inv. by eapply Wrap_prefixes_le.
  - intros (p & w1 & Hrun & [= <-])%bind_Ok_inv. by eapply WrapPrefix_prefixes_le.
  - intros (fs & w1 & Hrun & [= <-])%bind_Ok_inv.
    split; [by eapply StackFrames_prefixes_le|].
    apply Hsame. by apply StackFrames_effect in Hrun as [_ ?].
  - intros (s & w1 & Hrun & [= <-])%bind_Ok_inv.
    destruct (Stack_inv _ _ _ _ _ Hrun) as (fs & Hrun' & _).
    split; [by eapply StackFrames_prefixes_le|].
    apply Hsame. by apply StackFrames_effect in Hrun' as [_ ?].
  - intros (s & w1 & Hrun & [= <-])%bind_Ok_inv.
    destruct (StackTrace_inv _ _ _ _ _ _ Hrun) as (msg & st & _ & Hstack & _).
    destruct (Stack_inv _ _ _ _ _ Hstack) as (fs & Hrun' & _).
    split; [by eapply StackFrames_prefixes_le|].
    apply Hsame. by apply StackFrames_effect in Hrun' as [_ ?].
  - intros [= <-]. split; [intros a o Ho; by exists o|].
    simpl. intros a ob Hnone Hsome. congruence.
Qed.

Lemma steps_prefixes_le (w w' : world) (ops : list op) : steps_ w ops w' → prefixes_le w w'.
Proof.
  induction 1 as [w|w w1 w2 o ops Hrun _ IH]; [apply prefixes_le_refl|].
  eapply prefixes_le_trans; [|exact IH]. by apply run_op_prefixes_le in Hrun as [? _].
Qed.

Lemma run_op_causes_foreign (o : op) (w w' : world) :
  run_op_ o w = Ok (tt, w') → causes_foreign (heap w) → causes_foreign (heap w').
Proof.
  intros Hrun Hinv a ob' Hob'.
  destruct (heap w !! a) as [ob|] eqn:Hob.
  - destruct (run_op_effect _ _ _ _ _ _ _ _ Hrun) as [Hle _].
    destruct (Hle a ob Hob) as (ob2 & Hob2 & HErr & _).
    assert (ob2 = ob') as -> by congruence. rewrite HErr. by eapply Hinv.
  - destruct (run_op_prefixes_le _ _ _ Hrun) as [_ Hnew]. by eapply Hnew.
Qed.

Lemma steps_causes_foreign (w w' : world) (ops : list op) :
  steps_ w ops w' → causes_foreign (heap w) → causes_foreign (heap w').
Proof.
  induction 1 as [w|w w1 w2 o ops Hrun _ IH]; [done|].
  intros Hinv. apply IH. by eapply run_op_causes_foreign.
Qed.

End Invariants.

(** X18: whatever operations of the package are run, an object stays where
    it is, keeps its cause and its captured addresses, and keeps its
    prefixes: prefixes are only ever added behind the ones that are
    there. *)
Theorem run_keeps_objects (FuncForPC : Z → option Func)
    (pcCallers pcNewStackableError pcWrap pcWrapPrefix : Z)
    (w w' : world) (ops : list op) (a : nat) (o : StackableError) :
  steps FuncForPC pcCallers pcNewStackableError pcWrap pcWrapPrefix w ops w' →
  heap w !! a = Some o →
  ∃ o',
    heap w' !! a = Some o'
    ∧ Err o' = Err o ∧ stack o' = stack o
    ∧ Prefixes o `prefix_of` Prefixes o'.
Proof.
  intros Hsteps Ho.
  destruct (steps_world_le _ _ _ _ _ _ _ _ Hsteps a o Ho) as (o1 & Ho1 & HErr & Hstack & _).
  destruct (steps_prefixes_le _ _ _ _ _ _ _ _ Hsteps a o Ho) as (o2 & Ho2 & Hpre).
  assert (o2 = o1) as -> by congruence. by exists o1.
Qed.

Lemma run_keeps_objects_witness :
  ∃ w',
    steps sample_FuncForPC 1 2 3 4 sample_world
      [OpWrapPrefix (VErr (ErrStackable (Ref 0))) "b" [300%Z];
       OpStackTrace 2 (Ref 0);
       OpWrap (VOther "42") [400%Z]] w'
    ∧ ∃ o',
        heap w' !! 0 = Some o'
        ∧ Err o' = ErrForeign 7 "boom" ∧ stack o' = [100%Z; 0%Z; 200%Z]
        ∧ ["a"] `prefix_of` Prefixes o'.
Proof.
  assert (∃ w', steps sample_FuncForPC 1 2 3 4 sample_world
      [OpWrapPrefix (VErr (ErrStackable (Ref 0))) "b" [300%Z];
       OpStackTrace 2 (Ref 0);
       OpWrap (VOther "42") [400%Z]] w') as [w' Hsteps].
  { eexists. econstructor; [vm_compute; reflexivity|].
    econstructor; [vm_compute; reflexivity|].
    econstructor; [vm_compute; reflexivity|]. constructor. }
  exists w'. split; [done|].
  exact (run_keeps_objects sample_FuncForPC 1 2 3 4 sample_world w' _ 0 _ Hsteps eq_refl).
Defined.

(** X19: if the cause of every object is an error that is no
    [StackableError] and not nil, as in the state without objects, then it
    is so after any operations of the package, and then [Error] returns for
    every pointer to an object, without a second step into a cause, and
    [StackTrace] returns with it. *)
Theorem reports_never_panic (FuncForPC : Z → option Func)
    (pcCallers pcNewStackableError pcWrap pcWrapPrefix : Z)
    (w w' : world) (ops : list op) :
  causes_foreign (heap w) →
  steps FuncForPC pcCallers pcNewStackableError pcWrap pcWrapPrefix w ops w' →
  causes_foreign (heap w')
  ∧ ∀ a o, heap w' !! a = Some o →
      ∃ msg s w'',
        foreign_message (Err o) = Some msg
        ∧ Error 2 (heap w') (ErrStackable (Ref a)) = Ok (prefix_loop (Prefixes o) msg)
        ∧ StackTrace FuncForPC 2 (Ref a) w' = Ok (s, w'').
Proof.
  intros Hinv Hsteps.
  pose proof (steps_causes_foreign _ _ _ _ _ _ _ _ Hsteps Hinv) as Hinv'.
  split; [done|]. intros a o Ho.
  destruct (Hinv' a o Ho) as (msg & HErr).
  assert (Error 2 (heap w') (ErrStackable (Ref a)) = Ok (prefix_loop (Prefixes o) msg))
    as Hmsg by (by rewrite Error_stackable, Ho, (Error_of_foreign _ _ _ _ HErr)).
  destruct (StackFrames_Ok FuncForPC a o w' Ho) as (fs & w'' & Hrun & _).
  destruct (renders_all fs) as [lines Hlines].
  exists msg. eexists _, w''. split_and!; [done..|].
  apply StackTrace_run; [exact Hmsg|]. by eapply Stack_Ok.
Qed.

Lemma reports_never_panic_witness :
  causes_foreign (heap (mkWorld [] 0 50 [] []))
  ∧ ∃ w',
      steps sample_FuncForPC 1 2 3 4 (mkWorld [] 0 50 [] [])
        [OpWrapPrefix (VErr (ErrUncomparable 3 "many")) "ctx" [100%Z; 200%Z];
         OpStack (Ref 0)] w'
      ∧ causes_foreign (heap w')
      ∧ ∀ a o, heap w' !! a = Some o →
          ∃ msg s w'',
            foreign_message (Err o) = Some msg
            ∧ Error 2 (heap w') (ErrStackable (Ref a))
              = Ok (prefix_loop (Prefixes o) msg)
            ∧ StackTrace sample_FuncForPC 2 (Ref a) w' = Ok (s, w'').
Proof.
  assert (causes_foreign (heap (mkWorld [] 0 50 [] []))) as Hinv.
  { intros a o Ho. simpl in Ho. by rewrite lookup_nil in Ho. }
  assert (∃ w', steps sample_FuncForPC 1 2 3 4 (mkWorld [] 0 50 [] [])
      [OpWrapPrefix (VErr (ErrUncomparable 3 "many")) "ctx" [100%Z; 200%Z];
       OpStack (Ref 0)] w')
    as [w' Hsteps].
  { eexists. econstructor; [vm_compute; reflexivity|].
    econstructor; [vm_compute; reflexivity|]. constructor. }
  split; [done|]. exists w'. split; [done|].
  exact (reports_never_panic sample_FuncForPC 1 2 3 4 _ w' _ Hinv Hsteps).
Defined.

(** X20: errors of one type that is not comparable make [Is] panic, and
    make it depend on the order of its arguments: with an object [b] whose
    cause is such an error and an object [a] whose cause is [b], [Is a b]
    is [true] and [Is b a] panics, as does [Is] on [b] and any error of the
    type of its cause, and on two errors of this type. *)
Theorem Is_uncomparable_panics (h : list StackableError) (a b : nat)
    (oa ob : StackableError) (ty : nat) (msg msg' : string) (n : nat) :
  h !! a = Some oa → Err oa = ErrStackable (Ref b) →
  h !! b = Some ob → Err ob = ErrUncomparable ty msg →
  a ≠ b → 5 ≤ n →
  Is n h (ErrStackable (Ref a)) (ErrStackable (Ref b)) = Ok true
  ∧ Is n h (ErrStackable (Ref b)) (ErrStackable (Ref a)) = Panic
  ∧ Is n h (ErrStackable (Ref b)) (ErrUncomparable ty msg') = Panic
  ∧ Is n h (ErrUncomparable ty msg) (ErrUncomparable ty msg') = Panic.
Proof.
  intros Ha Hab Hb Hcause Hne Hn.
  assert (∀ m, chain h (ErrUncomparable ty m) [ErrUncomparable ty m]) as Hroot
    by (by constructor).
  assert (chain h (ErrStackable (Ref b)) [ErrStackable (Ref b); ErrUncomparable ty msg])
    as Hchb.
  { econstructor; [done|]. rewrite Hcause. apply Hroot. }
  assert (chain h (ErrStackable (Ref a))
            [ErrStackable (Ref a); ErrStackable (Ref b); ErrUncomparable ty msg])
    as Hcha.
  { econstructor; [done|]. by rewrite Hab. }
  assert (∀ m, same_uncomparable (ErrUncomparable ty msg) (ErrUncomparable ty m) = true)
    as Hsu.
  { intros m. cbn [same_uncomparable]. by rewrite bool_decide_eq_true_2. }
  split_and!.
  - rewrite (Is_root_panics h n _ _ _ _ _ _ Hcha Hchb eq_refl eq_refl (Hsu msg))
      by (simpl; lia).
    rewrite bool_decide_eq_true_2; [done|].
    split; [|done]. apply list_elem_of_further, list_elem_of_here.
  - rewrite (Is_root_panics h n _ _ _ _ _ _ Hchb Hcha eq_refl eq_refl (Hsu msg))
      by (simpl; lia).
    rewrite bool_decide_eq_false_2; [done|].
    rewrite !elem_of_cons, elem_of_nil. intros [[?|[?|[]]] _]; congruence.
  - rewrite (Is_root_panics h n _ _ _ _ _ _ Hchb (Hroot msg') eq_refl eq_refl (Hsu msg'))
      by (simpl; lia).
    rewrite bool_decide_eq_false_2; [done|].
    rewrite !elem_of_cons, elem_of_nil. intros [[?|[?|[]]] ?]; congruence.
  - rewrite (Is_root_panics h n _ _ _ _ _ _ (Hroot msg) (Hroot msg') eq_refl eq_refl
               (Hsu msg')) by (simpl; lia).
    rewrite bool_decide_eq_false_2; [done|].
    rewrite !elem_of_cons, elem_of_nil. intros [[?|[]] ?]; congruence.
Qed.

Lemma Is_uncomparable_panics_witness :
  ([mkStackableError (ErrStackable (Ref 1)) [] [] None;
    mkStackableError (ErrUncomparable 3 "many") [] [] None] !! 0
   = Some (mkStackableError (ErrStackable (Ref 1)) [] [] None)
   ∧ [mkStackableError (ErrStackable (Ref 1)) [] [] None;
      mkStackableError (ErrUncomparable 3 "many") [] [] None] !! 1
     = Some (mkStackableError (ErrUncomparable 3 "many") [] [] None)
   ∧ 0 ≠ 1 ∧ 5 ≤ 5)
  ∧ Is 5 [mkStackableError (ErrStackable (Ref 1)) [] [] None;
          mkStackableError (ErrUncomparable 3 "many") [] [] None]
      (ErrStackable (Ref 0)) (ErrStackable (Ref 1)) = Ok true
  ∧ Is 5 [mkStackableError (ErrStackable (Ref 1)) [] [] None;
          mkStackableError (ErrUncomparable 3 "many") [] [] None]
      (ErrStackable (Ref 1)) (ErrStackable (Ref 0)) = Panic
  ∧ Is 5 [mkStackableError (ErrStackable (Ref 1)) [] [] None;
          mkStackableError (ErrUncomparable 3 "many") [] [] None]
      (ErrStackable (Ref 1)) (ErrUncomparable 3 "more") = Panic
  ∧ Is 5 [mkStackableError (ErrStackable (Ref 1)) [] [] None;
          mkStackableError (ErrUncomparable 3 "many") [] [] None]
      (ErrUncomparable 3 "many") (ErrUncomparable 3 "more") = Panic.
Proof.
  split; [split_and!; (reflexivity || lia)|].
  apply (Is_uncomparable_panics
           [mkStackableError (ErrStackable (Ref 1)) [] [] None;
            mkStackableError (ErrUncomparable 3 "many") [] [] None] 0 1
           (mkStackableError (ErrStackable (Ref 1)) [] [] None)
           (mkStackableError (ErrUncomparable 3 "many") [] [] None)
           3 "many" "more" 5); (reflexivity || lia).
Defined.
